(** * CRC-32C (Castagnoli) engine of [platform/src/crc32c.cc]

    A shallow embedding of the table-driven software engine, the
    instruction-driven hardware engine, the GF(2) zero-shift operators and
    the capability dispatcher, followed by the properties proved of them.

    Conventions of the embedding:
    - [uint32_t] and [uint64_t] values are [Z]; the only places where the
      source can leave the range of its type are [~crc_in] and the casts
      [static_cast<uint32_t>], both written out ([u32_not], [to_u32]);
    - a [const uint8_t* buf] is an address ([Z]) into a byte-addressed
      memory [Z -> byte]; [buf & ALIGN64_MASK] is computed on the address;
    - the [reinterpret_cast<const uint64_t*>] load is little-endian, as on
      the x86 targets for which the file is written;
    - static arrays are lists ([table] for the two-dimensional ones),
      written by index with [upd] and [upd2];
    - a [while] loop is the iteration [while_loop], whose fuel is computed
      from the loop's own counter; the lemmas [while_loop_inv] and the
      [*_done] lemmas show that the fuel is never exhausted early. *)

From Stdlib Require Import ZArith List Lia Bool Btauto.
From Stdlib.Strings Require Import Byte.
Import ListNotations.
Local Open Scope Z_scope.

Declare Scope bits_scope.
Infix "<<" := Z.shiftl (at level 41, left associativity) : bits_scope.
Infix ">>" := Z.shiftr (at level 41, left associativity) : bits_scope.
Infix ".&" := Z.land (at level 43, left associativity) : bits_scope.
Infix ".^" := Z.lxor (at level 45, left associativity) : bits_scope.
Infix ".|" := Z.lor (at level 47, left associativity) : bits_scope.
Local Open Scope bits_scope.

(** ** Machine integers and arrays *)

Definition u32_max : Z := 0xFFFFFFFF.

(** [static_cast<uint32_t>(x)] *)
Definition to_u32 (x : Z) : Z := x .& u32_max.

(** [~x] at type [uint32_t] *)
Definition u32_not (x : Z) : Z := to_u32 (Z.lnot x).

Definition table : Type := list (list Z).

Definition get (a : list Z) (i : Z) : Z := nth (Z.to_nat i) a 0.

Definition get2 (t : table) (x : nat) (i : Z) : Z := get (nth x t []) i.

Fixpoint upd {A : Type} (l : list A) (i : nat) (v : A) : list A :=
  match l, i with
  | [], _ => []
  | _ :: t, O => v :: t
  | h :: t, S i' => h :: upd t i' v
  end.

Definition upd2 (t : table) (x i : nat) (v : Z) : table :=
  upd t x (upd (nth x t []) i v).

(** A zero-initialised static array [uint32_t t[rows][cols]]. *)
Definition zero_table (rows cols : nat) : table :=
  repeat (repeat 0 cols) rows.

(** ** Control structures *)

(** [for (i = lo; i < lo + n; i++) s = body i s] *)
Definition for_loop {St : Type} (lo n : nat) (body : nat -> St -> St)
           (s : St) : St :=
  fold_left (fun s i => body i s) (seq lo n) s.

(** [while (cond s) s = body s] *)
Fixpoint while_loop {St : Type} (fuel : nat) (cond : St -> bool)
         (body : St -> St) (s : St) : St :=
  match fuel with
  | O => s
  | S fuel' =>
      if cond s then while_loop fuel' cond body (body s) else s
  end.

(** [do s = body s while (cond s)] *)
Definition do_while {St : Type} (fuel : nat) (cond : St -> bool)
           (body : St -> St) (s : St) : St :=
  while_loop fuel cond body (body s).

(** ** Memory *)

Definition memory : Type := Z -> byte.

(** [*buf] for a [const uint8_t* buf] *)
Definition load8 (mem : memory) (p : Z) : Z := Z.of_N (Byte.to_N (mem p)).

(** The [n] bytes at [p], [p+1], ... *)
Definition load (mem : memory) (p : Z) (n : Z) : list Z :=
  map (fun i => load8 mem (p + Z.of_nat i)) (seq 0 (Z.to_nat n)).

Fixpoint le_combine (bs : list Z) : Z :=
  match bs with
  | [] => 0
  | b :: bs' => b .| (le_combine bs' << 8)
  end.

(** [*reinterpret_cast<const uint64_t*>(buf)] *)
Definition load64 (mem : memory) (p : Z) : Z := le_combine (load mem p 8).

(** ** Constants *)

Definition CRC32C_POLYNOMIAL_REV : Z := 0x82F63B78.
Definition ALIGN64_MASK : Z := 8 - 1.
Definition TABLE_X : nat := 8.
Definition TABLE_Y : nat := 256.
Definition SHIFT_TABLE_X : nat := 4.
Definition SHIFT_TABLE_Y : nat := 256.
Definition LONG_BLOCK : Z := 8192.
Definition SHORT_BLOCK : Z := 256.

(** ** Polynomial algebra over GF(2) *)

(** The loop of [gf2_matrix_times]: [mat] is the rest of the row array and
    is advanced with [vec >>= 1].  The source never runs off the 32 rows
    because [vec] is a [uint32_t]; the model stops there. *)
Fixpoint gf2_matrix_times_loop (mat : list Z) (vec sum : Z) {struct mat} : Z :=
  if vec >? 0 then
    match mat with
    | [] => sum
    | row :: mat' =>
        gf2_matrix_times_loop mat' (vec >> 1)
          (if negb (vec .& 1 =? 0) then sum .^ row else sum)
    end
  else sum.

Definition gf2_matrix_times (mat : list Z) (vec : Z) : Z :=
  gf2_matrix_times_loop mat vec 0.

(** [square[n] = gf2_matrix_times(mat, mat[n])] for the 32 rows; [square]
    and [mat] are distinct arrays at every call site. *)
Definition gf2_matrix_square (square mat : list Z) : list Z :=
  for_loop 0 32
    (fun n square => upd square n (gf2_matrix_times mat (get mat (Z.of_nat n))))
    square.

(** How the [do ... while (len > 0)] loop of [crc32c_zeros_op] is left:
    through [return] (the answer is in [even]) or by falling out of the
    loop (the answer is in [odd]). *)
Inductive zeros_op_exit : Type :=
| Returned (even : list Z)
| Fell_out (even odd : list Z).

Fixpoint zeros_op_loop (fuel : nat) (even odd : list Z) (len : Z)
  : zeros_op_exit :=
  let even := gf2_matrix_square even odd in
  let len := len >> 1 in
  if len =? 0 then Returned even
  else
    let odd := gf2_matrix_square odd even in
    let len := len >> 1 in
    if len >? 0 then
      match fuel with
      | O => Fell_out even odd
      | S fuel' => zeros_op_loop fuel' even odd len
      end
    else Fell_out even odd.

(** [even] is the caller's 32-row array, overwritten with the result. *)
Definition crc32c_zeros_op (even : list Z) (len : Z) : list Z :=
  (* put operator for one zero bit in odd *)
  let odd := upd (repeat 0 32) 0 CRC32C_POLYNOMIAL_REV in
  let '(odd, _) :=
    for_loop 1 31 (fun n '(odd, row) => (upd odd n row, row << 1)) (odd, 1) in
  (* put operator for two zero bits in even *)
  let even := gf2_matrix_square even odd in
  (* put operator for four zero bits in odd *)
  let odd := gf2_matrix_square odd even in
  match zeros_op_loop (Z.to_nat (Z.log2 len)) even odd len with
  | Returned even => even
  | Fell_out even odd =>
      (* answer ended up in odd -- copy to even *)
      for_loop 0 32 (fun n even => upd even n (get odd (Z.of_nat n))) even
  end.

(** The [for] loop of [crc32c_zeros]: the four lookup tables of the
    operator [op]. *)
Definition crc32c_zeros_fill (op : list Z) (zeros : table) : table :=
  for_loop 0 256
    (fun n zeros =>
       let v := Z.of_nat n in
       let zeros := upd2 zeros 0 n (gf2_matrix_times op v) in
       let zeros := upd2 zeros 1 n (gf2_matrix_times op (v << 8)) in
       let zeros := upd2 zeros 2 n (gf2_matrix_times op (v << 16)) in
       upd2 zeros 3 n (gf2_matrix_times op (v << 24)))
    zeros.

(** [crc32c_zeros]; the local [op] is written in full by
    [crc32c_zeros_op] before it is read. *)
Definition crc32c_zeros (zeros : table) (len : Z) : table :=
  let op := crc32c_zeros_op (repeat 0 32) len in
  crc32c_zeros_fill op zeros.

(** [crc32c_shift]: apply the zeros operator table to [crc]. *)
Definition crc32c_shift (zeros : table) (crc : Z) : Z :=
  get2 zeros 0 (crc .& 0xff) .^ get2 zeros 1 ((crc >> 8) .& 0xff) .^
  get2 zeros 2 ((crc >> 16) .& 0xff) .^ get2 zeros 3 (crc >> 24).

(** ** Static tables *)

(** One step of the bit-at-a-time loop of [setup_tables]. *)
Definition bit_step (crc : Z) : Z :=
  if negb (crc .& 1 =? 0) then (crc >> 1) .^ CRC32C_POLYNOMIAL_REV
  else crc >> 1.

(** The first two loops of [setup_tables], on [crc32c_sw_lookup_table]. *)
Definition setup_lookup_table (t : table) : table :=
  let t :=
    for_loop 0 TABLE_Y
      (fun ii t =>
         let crc := for_loop 0 TABLE_X (fun _ crc => bit_step crc) (Z.of_nat ii) in
         upd2 t 0 ii crc)
      t in
  for_loop 0 TABLE_Y
    (fun ii t =>
       snd (for_loop 1 (TABLE_X - 1)
              (fun jj '(crc, t) =>
                 let crc := get2 t 0 (crc .& 0xff) .^ (crc >> 8) in
                 (crc, upd2 t jj ii crc))
              (get2 t 0 (Z.of_nat ii), t)))
    t.

Record tables : Type := mk_tables {
  sw_lookup_table : table;
  long_table : table;
  short_table : table
}.

Definition setup_tables : tables :=
  {| sw_lookup_table := setup_lookup_table (zero_table TABLE_X TABLE_Y);
     long_table := crc32c_zeros (zero_table SHIFT_TABLE_X SHIFT_TABLE_Y) LONG_BLOCK;
     short_table := crc32c_zeros (zero_table SHIFT_TABLE_X SHIFT_TABLE_Y) SHORT_BLOCK |}.

Definition crc32c_sw_lookup_table : table := sw_lookup_table setup_tables.
Definition crc32c_long : table := long_table setup_tables.
Definition crc32c_short : table := short_table setup_tables.

(** ** The engines

    The software and the hardware engine have the same control structure
    and differ in the per-byte and the per-word fold only, so the embedding
    states the three control structures ([one_way], [short_block],
    [three_block]) once, over the two folds, and instantiates them. *)

(** The running state of a checksum call: the [uint64_t crc], the pointer
    [buf] and the remaining [len]. *)
Record cursor : Type := mk_cursor { crc : Z; buf : Z; len : Z }.

(** The state of the inner [do ... while (buf < end)] loop. *)
Record lanes : Type := mk_lanes { lane0 : Z; lane1 : Z; lane2 : Z; lbuf : Z }.

Section Engine.
Variable mem : memory.
(** [fold_byte crc b]: fold the byte [b = *buf] into [crc]. *)
Variable fold_byte : Z -> Z -> Z.
(** [fold_word mem crc buf]: fold the 8 bytes at [buf] into [crc]. *)
Variable fold_word : memory -> Z -> Z -> Z.

Definition eat_byte (s : cursor) : cursor :=
  {| crc := fold_byte (crc s) (load8 mem (buf s));
     buf := buf s + 1;
     len := len s - 1 |}.

Definition eat_word (s : cursor) : cursor :=
  {| crc := fold_word mem (crc s) (buf s);
     buf := buf s + 8;
     len := len s - 8 |}.

Definition unaligned (s : cursor) : bool :=
  negb (buf s .& ALIGN64_MASK =? 0) && (len s >? 0).

(** Every loop on a cursor consumes at least one byte per iteration. *)
Definition fuel_of (s : cursor) : nat := Z.to_nat (len s).

(** [while ((buf & ALIGN64_MASK) != 0 && len > 0)] *)
Definition align_loop (s : cursor) : cursor :=
  while_loop (fuel_of s) unaligned eat_byte s.

(** [while (len >= sizeof(uint64_t))] *)
Definition word_loop (s : cursor) : cursor :=
  while_loop (fuel_of s) (fun s => len s >=? 8) eat_word s.

(** [while (len > 0)] *)
Definition byte_loop (s : cursor) : cursor :=
  while_loop (fuel_of s) (fun s => len s >? 0) eat_byte s.

(** The body of [while (len >= 3 * BLOCK)]: three lanes in lockstep, then
    the combination through the shift table [zeros]. *)
Definition eat_three_blocks (BLOCK : Z) (zeros : table) (s : cursor) : cursor :=
  let end_ := buf s + BLOCK in
  let l :=
    do_while (Z.to_nat BLOCK) (fun l => lbuf l <? end_)
      (fun l =>
         {| lane0 := fold_word mem (lane0 l) (lbuf l);
            lane1 := fold_word mem (lane1 l) (lbuf l + BLOCK);
            lane2 := fold_word mem (lane2 l) (lbuf l + 2 * BLOCK);
            lbuf := lbuf l + 8 |})
      {| lane0 := crc s; lane1 := 0; lane2 := 0; lbuf := buf s |} in
  let crc := crc32c_shift zeros (to_u32 (lane0 l)) .^ lane1 l in
  let crc := crc32c_shift zeros (to_u32 crc) .^ lane2 l in
  {| crc := crc; buf := lbuf l + 2 * BLOCK; len := len s - 3 * BLOCK |}.

Definition block_loop (BLOCK : Z) (zeros : table) (s : cursor) : cursor :=
  while_loop (fuel_of s) (fun s => len s >=? 3 * BLOCK)
    (eat_three_blocks BLOCK zeros) s.

(** [static_cast<uint32_t>(crc ^ std::numeric_limits<uint32_t>::max())] *)
Definition finish (s : cursor) : Z := to_u32 (crc s .^ u32_max).

Definition start (buf len crc_in : Z) : cursor :=
  {| crc := u32_not crc_in; buf := buf; len := len |}.

(** [crc32c_sw_1way] and [crc32c_hw_1way] *)
Definition one_way (buf len crc_in : Z) : Z :=
  let s := start buf len crc_in in
  let s := align_loop s in
  let s := word_loop s in
  let s := byte_loop s in
  finish s.

(** [crc32c_sw_short_block] and [crc32c_hw_short_block] *)
Definition short_block (buf len crc_in : Z) : Z :=
  if len <? 3 * SHORT_BLOCK then one_way buf len crc_in
  else
    let s := start buf len crc_in in
    let s := align_loop s in
    let s := block_loop SHORT_BLOCK crc32c_short s in
    let s := word_loop s in
    let s := byte_loop s in
    finish s.

(** [CRC32C_SW] and [CRC32C_HW] *)
Definition three_block (buf len crc_in : Z) : Z :=
  if len <? 3 * LONG_BLOCK then short_block buf len crc_in
  else
    let s := start buf len crc_in in
    let s := align_loop s in
    let s := block_loop LONG_BLOCK crc32c_long s in
    let s := block_loop SHORT_BLOCK crc32c_short s in
    let s := word_loop s in
    let s := byte_loop s in
    finish s.
End Engine.

(** *** Software folds *)

(** [crc32c_sw_lookup_table[0][(crc ^ *buf) & 0xff] ^ (crc >> 8)] *)
Definition sw_byte (crc b : Z) : Z :=
  get2 crc32c_sw_lookup_table 0 ((crc .^ b) .& 0xff) .^ (crc >> 8).

Definition crc32c_sw_inner (mem : memory) (crc buffer : Z) : Z :=
  let crc := crc .^ load64 mem buffer in
  get2 crc32c_sw_lookup_table 7 (crc .& 0xff) .^
  get2 crc32c_sw_lookup_table 6 ((crc >> 8) .& 0xff) .^
  get2 crc32c_sw_lookup_table 5 ((crc >> 16) .& 0xff) .^
  get2 crc32c_sw_lookup_table 4 ((crc >> 24) .& 0xff) .^
  get2 crc32c_sw_lookup_table 3 ((crc >> 32) .& 0xff) .^
  get2 crc32c_sw_lookup_table 2 ((crc >> 40) .& 0xff) .^
  get2 crc32c_sw_lookup_table 1 ((crc >> 48) .& 0xff) .^
  get2 crc32c_sw_lookup_table 0 (crc >> 56).

Definition crc32c_sw_1way (mem : memory) (buf len crc_in : Z) : Z :=
  one_way mem sw_byte crc32c_sw_inner buf len crc_in.

Definition crc32c_sw_short_block (mem : memory) (buf len crc_in : Z) : Z :=
  short_block mem sw_byte crc32c_sw_inner buf len crc_in.

Definition crc32c_sw (mem : memory) (buf len crc_in : Z) : Z :=
  three_block mem sw_byte crc32c_sw_inner buf len crc_in.

(** *** Hardware folds *)

(** Modelled from the spec: the hardware checksum instruction behind the
    intrinsics [_mm_crc32_u8] and [_mm_crc32_u64] is not code of the
    repository.  It accumulates CRC-32C (reversed polynomial [0x82F63B78])
    of its operand into the low 32 bits of the destination and zero-extends
    the result; in the reflected representation that is one [bit_step] per
    operand bit after the operand is XORed into the register. *)
Definition mm_crc32_u8 (crc v : Z) : Z :=
  Nat.iter 8 bit_step (crc .^ v).

Definition mm_crc32_u64 (crc v : Z) : Z :=
  Nat.iter 64 bit_step (to_u32 crc .^ v).

(** [_mm_crc32_u8(static_cast<uint32_t>(crc), *buf)] *)
Definition hw_byte (crc b : Z) : Z := mm_crc32_u8 (to_u32 crc) b.

(** [_mm_crc32_u64(crc, *reinterpret_cast<const uint64_t*>(buf))] *)
Definition hw_word (mem : memory) (crc buf : Z) : Z :=
  mm_crc32_u64 crc (load64 mem buf).

Definition crc32c_hw_1way (mem : memory) (buf len crc_in : Z) : Z :=
  one_way mem hw_byte hw_word buf len crc_in.

Definition crc32c_hw_short_block (mem : memory) (buf len crc_in : Z) : Z :=
  short_block mem hw_byte hw_word buf len crc_in.

Definition crc32c_hw (mem : memory) (buf len crc_in : Z) : Z :=
  three_block mem hw_byte hw_word buf len crc_in.

(** ** Capability dispatcher *)

Definition crc32c_function : Type := memory -> Z -> Z -> Z -> Z.

(** [setup_crc32c]; [registers] is what [cpuid] leaf 1 wrote into
    [eax, ebx, ecx, edx]. *)
Definition setup_crc32c (registers : list Z) : crc32c_function :=
  let SSE42 := 0x00100000 in
  let f := crc32c_sw in
  if negb (get registers 2 .& SSE42 =? 0) then crc32c_hw else f.

(** The exported [crc32c]; [safe_crc32c] is [setup_crc32c registers]. *)
Definition crc32c (registers : list Z) (mem : memory) (buf len crc_in : Z) : Z :=
  setup_crc32c registers mem buf len crc_in.

(** ** Reference semantics *)

(** Appending one zero byte to the register: the single-byte table step of
    the source, at the byte [0]. *)
Definition zero_byte (crc : Z) : Z := sw_byte crc 0.

(** The single-byte table step over the bytes [bs], in memory order. *)
Definition crc_bytes (crc : Z) (bs : list Z) : Z := fold_left sw_byte bs crc.

(** Complement in, byte-at-a-time over [bs], complement out. *)
Definition crc32c_bytes (bs : list Z) (crc_in : Z) : Z :=
  to_u32 (crc_bytes (u32_not crc_in) bs .^ u32_max).

Definition is_byte (b : Z) : Prop := 0 <= b < 256.

(** The product of [gf2_matrix_times] as a sum over GF(2): the XOR of the
    rows of [mat] selected by the bits of [vec], lowest bit first. *)
Fixpoint gf2_sum (mat : list Z) (vec : Z) : Z :=
  match mat with
  | [] => 0
  | row :: mat' => (if Z.odd vec then row else 0) .^ gf2_sum mat' (vec >> 1)
  end.

(** Where [crc32c_zeros_op] finds its answer when the loop is left. *)
Definition zeros_op_answer (x : zeros_op_exit) : list Z :=
  match x with
  | Returned even => even
  | Fell_out _ odd => odd
  end.

(** A [rows] by [cols] table. *)
Definition shaped (rows cols : nat) (t : table) : Prop :=
  length t = rows /\ forall x, (x < rows)%nat -> length (nth x t []) = cols.

(** The loop invariant of every engine loop: of the [len0] bytes at [buf0]
    the cursor [s] has consumed all but its [len], and its [crc] is the
    byte-at-a-time register over the consumed bytes, started from [c0]. *)
Definition consumed (mem : memory) (buf0 len0 c0 : Z) (s : cursor) : Prop :=
  0 <= len s <= len0 /\
  buf s = buf0 + (len0 - len s) /\
  crc s = crc_bytes c0 (load mem buf0 (len0 - len s)).

(** The invariant of the inner [do ... while (buf < end)] loop: the three
    lanes have each consumed the first [lbuf l - buf s] bytes of their
    block. *)
Definition in_lockstep (mem : memory) (BLOCK : Z) (s : cursor) (l : lanes)
  : Prop :=
  let k := lbuf l - buf s in
  0 < k <= BLOCK /\ k mod 8 = 0 /\
  lane0 l = crc_bytes (crc s) (load mem (buf s) k) /\
  lane1 l = crc_bytes 0 (load mem (buf s + BLOCK) k) /\
  lane2 l = crc_bytes 0 (load mem (buf s + 2 * BLOCK) k).

(** [mat] is a 32-row operator with 32-bit rows that acts as [f] on every
    32-bit register state. *)
Definition represents (mat : list Z) (f : Z -> Z) : Prop :=
  length mat = 32%nat /\
  (forall row, In row mat -> 0 <= row < 2 ^ 32) /\
  (forall v, 0 <= v < 2 ^ 32 -> gf2_matrix_times mat v = f v).

(** The known vectors of the test suite: 32 bytes and their checksum from
    seed 0. *)
Definition known_vectors : list (list Z * Z) :=
  [ (repeat 0x00 32, 0x8A9136AA);
    (repeat 0xFF 32, 0x62A8AB43);
    (map Z.of_nat (seq 0 32), 0x46DD794E);
    (map (fun i => 0x1F - Z.of_nat i) (seq 0 32), 0x113FDB5C) ].

(** Two sample memories: all zero, and the address modulo 251 at every
    address. *)
Definition zero_memory : memory := fun _ => x00.

Definition sample_memory : memory :=
  fun a => match Byte.of_N (Z.to_N (a mod 251)) with
           | Some b => b
           | None => x00
           end.

(** [sample_memory] with the byte at address 4 replaced by [0x09]. *)
Definition patched_memory : memory :=
  fun a => if a =? 4 then x09 else sample_memory a.

(** The bit-at-a-time CRC-32C over the bytes [bs]: each byte is XORed into
    the register and followed by the eight bit steps that [setup_tables]
    runs to fill row 0 of the byte table; complement in, complement out. *)
Definition crc32c_bitwise (bs : list Z) (crc_in : Z) : Z :=
  to_u32 (fold_left (fun c b => Nat.iter 8 bit_step (c .^ b)) bs (u32_not crc_in)
          .^ u32_max).

(** * Proofs *)

(** ** Bitwise arithmetic *)

Ltac xor_ac :=
  apply Z.bits_inj'; intros; rewrite ?Z.lxor_spec, ?Z.bits_0; btauto.

Lemma land_1_odd (x : Z) : negb (x .& 1 =? 0) = Z.odd x.
Proof.
  change 1 with (Z.ones 1) at 1. rewrite Z.land_ones by lia.
  change (2 ^ 1) with 2. rewrite Zmod_odd.
  destruct (Z.odd x); reflexivity.
Qed.

Lemma odd_lxor (a b : Z) : Z.odd (a .^ b) = xorb (Z.odd a) (Z.odd b).
Proof. rewrite <- !Z.bit0_odd. apply Z.lxor_spec. Qed.

Lemma land_255_range (x : Z) : 0 <= x .& 0xff < 256.
Proof.
  change 0xff with (Z.ones 8). rewrite Z.land_ones by lia.
  apply Z.mod_pos_bound. reflexivity.
Qed.

Lemma land_255_lxor (a b : Z) : (a .^ b) .& 0xff = (a .& 0xff) .^ (b .& 0xff).
Proof.
  apply Z.bits_inj'; intros.
  rewrite ?Z.lxor_spec, ?Z.land_spec, ?Z.lxor_spec.
  destruct (Z.testbit 255 n); btauto.
Qed.

Lemma testbit_255 (i : Z) : 0 <= i -> Z.testbit 0xff i = (i <? 8).
Proof. intros. change 0xff with (Z.ones 8). apply Z.testbit_ones_nonneg; lia. Qed.

Lemma split_low_byte (v : Z) : v = (v .& 0xff) .^ (v >> 8 << 8).
Proof.
  apply Z.bits_inj'; intros i Hi.
  rewrite Z.lxor_spec, Z.land_spec, testbit_255, Z.shiftl_spec by lia.
  destruct (Z.ltb_spec i 8).
  - rewrite (Z.testbit_neg_r _ (i - 8)) by lia. btauto.
  - rewrite Z.shiftr_spec by lia. replace (i - 8 + 8) with i by lia. btauto.
Qed.

Lemma byte_high_zero (b : Z) : 0 <= b < 256 -> b >> 8 = 0.
Proof. intros. rewrite Z.shiftr_div_pow2 by lia. apply Z.div_small. lia. Qed.

Lemma byte_land_255 (b : Z) : 0 <= b < 256 -> b .& 0xff = b.
Proof.
  intros. change 0xff with (Z.ones 8). rewrite Z.land_ones by lia.
  apply Z.mod_small. lia.
Qed.

Lemma lxor_range (n a b : Z) :
  0 <= n -> 0 <= a < 2 ^ n -> 0 <= b < 2 ^ n -> 0 <= a .^ b < 2 ^ n.
Proof.
  intros Hn Ha Hb.
  destruct (Z.eq_dec a 0) as [->|Na]; [rewrite Z.lxor_0_l; exact Hb|].
  destruct (Z.eq_dec b 0) as [->|Nb]; [rewrite Z.lxor_0_r; exact Ha|].
  assert (H0 : 0 <= a .^ b) by (apply Z.lxor_nonneg; lia).
  split; [exact H0|].
  destruct (Z.eq_dec (a .^ b) 0) as [E|E]; [lia|].
  apply Z.log2_lt_pow2; [lia|].
  pose proof (Z.log2_lxor a b (proj1 Ha) (proj1 Hb)).
  assert (Z.log2 a < n) by (apply Z.log2_lt_pow2; lia).
  assert (Z.log2 b < n) by (apply Z.log2_lt_pow2; lia).
  lia.
Qed.

Lemma shiftr_range (n k a : Z) :
  0 <= k -> 0 <= a < 2 ^ n -> 0 <= a >> k < 2 ^ n.
Proof.
  intros Hk Ha. rewrite Z.shiftr_div_pow2 by lia.
  assert (0 < 2 ^ k) by (apply Z.pow_pos_nonneg; lia).
  split; [apply Z.div_pos; lia|].
  apply Z.le_lt_trans with a; [|lia].
  apply Z.div_le_upper_bound; nia.
Qed.

Lemma iter_lxor (f : Z -> Z) :
  (forall a b, f (a .^ b) = f a .^ f b) ->
  forall n a b, Nat.iter n f (a .^ b) = Nat.iter n f a .^ Nat.iter n f b.
Proof.
  intros Hf n; induction n as [|n IH]; intros a b; simpl; [reflexivity|].
  rewrite IH. apply Hf.
Qed.

(** ** The bit step and the byte table *)

Lemma bit_step_odd (x : Z) :
  bit_step x = if Z.odd x then (x >> 1) .^ CRC32C_POLYNOMIAL_REV else x >> 1.
Proof. unfold bit_step. rewrite land_1_odd. reflexivity. Qed.

Lemma bit_step_lxor (a b : Z) : bit_step (a .^ b) = bit_step a .^ bit_step b.
Proof.
  rewrite !bit_step_odd, odd_lxor, Z.shiftr_lxor.
  destruct (Z.odd a), (Z.odd b); simpl; xor_ac.
Qed.

Lemma bit_step_shiftl (w k : Z) : 0 <= k -> bit_step (w << (k + 1)) = w << k.
Proof.
  intros Hk. rewrite bit_step_odd.
  rewrite <- Z.bit0_odd, Z.shiftl_spec, Z.testbit_neg_r by lia.
  rewrite Z.shiftr_shiftl_l by lia. f_equal. lia.
Qed.

Lemma bit_steps_shiftl (w : Z) (n : nat) :
  Nat.iter n bit_step (w << Z.of_nat n) = w.
Proof.
  induction n as [|n IH]; [apply Z.shiftl_0_r|].
  rewrite Nat.iter_succ_r.
  replace (Z.of_nat (S n)) with (Z.of_nat n + 1) by lia.
  rewrite bit_step_shiftl by lia. exact IH.
Qed.

Lemma bit_step_range (x : Z) : 0 <= x < 2 ^ 32 -> 0 <= bit_step x < 2 ^ 32.
Proof.
  intros Hx. rewrite bit_step_odd.
  pose proof (shiftr_range 32 1 x ltac:(lia) Hx).
  destruct (Z.odd x); [|assumption].
  apply lxor_range; [lia|assumption|vm_compute; split; [discriminate|reflexivity]].
Qed.

Lemma forallb_below (P : nat -> bool) (n : nat) :
  forallb P (seq 0 n) = true ->
  forall v, 0 <= v < Z.of_nat n -> P (Z.to_nat v) = true.
Proof.
  intros H v Hv. rewrite forallb_forall in H. apply H.
  apply in_seq. lia.
Qed.

(** Row 0 of the byte table is eight bit steps of the index. *)
Lemma lookup_row0 (v : Z) :
  0 <= v < 256 -> get2 crc32c_sw_lookup_table 0 v = Nat.iter 8 bit_step v.
Proof.
  intros Hv.
  assert (H : forallb
                (fun n => get2 crc32c_sw_lookup_table 0 (Z.of_nat n)
                          =? Nat.iter 8 bit_step (Z.of_nat n))
                (seq 0 256) = true) by (vm_compute; reflexivity).
  pose proof (forallb_below _ _ H v ltac:(lia)) as E. cbv beta in E.
  rewrite Z2Nat.id in E by lia. apply Z.eqb_eq. exact E.
Qed.

(** Row [k+1] is row [k] moved past one more zero byte. *)
Lemma lookup_row_succ (k : nat) (v : Z) :
  (k < 7)%nat -> 0 <= v < 256 ->
  get2 crc32c_sw_lookup_table (S k) v
  = zero_byte (get2 crc32c_sw_lookup_table k v).
Proof.
  intros Hk Hv.
  assert (H : forallb
                (fun k => forallb
                   (fun n => get2 crc32c_sw_lookup_table (S k) (Z.of_nat n)
                             =? zero_byte (get2 crc32c_sw_lookup_table k (Z.of_nat n)))
                   (seq 0 256))
                (seq 0 7) = true) by (vm_compute; reflexivity).
  rewrite forallb_forall in H.
  specialize (H k ltac:(apply in_seq; lia)).
  pose proof (forallb_below _ _ H v ltac:(lia)) as E. cbv beta in E.
  rewrite Z2Nat.id in E by lia. apply Z.eqb_eq. exact E.
Qed.

Lemma lookup_row0_range (v : Z) :
  0 <= v < 256 -> 0 <= get2 crc32c_sw_lookup_table 0 v < 2 ^ 32.
Proof.
  intros Hv.
  assert (H : forallb
                (fun n => (0 <=? get2 crc32c_sw_lookup_table 0 (Z.of_nat n))
                          && (get2 crc32c_sw_lookup_table 0 (Z.of_nat n) <? 2 ^ 32))
                (seq 0 256) = true) by (vm_compute; reflexivity).
  pose proof (forallb_below _ _ H v ltac:(lia)) as E. cbv beta in E.
  rewrite Z2Nat.id in E by lia. lia.
Qed.

Lemma crc32c_long_eq :
  crc32c_long = crc32c_zeros (zero_table SHIFT_TABLE_X SHIFT_TABLE_Y) LONG_BLOCK.
Proof. reflexivity. Qed.

Lemma crc32c_short_eq :
  crc32c_short = crc32c_zeros (zero_table SHIFT_TABLE_X SHIFT_TABLE_Y) SHORT_BLOCK.
Proof. reflexivity. Qed.

(** From here on the tables are used through the lemmas above. *)
Global Opaque crc32c_sw_lookup_table crc32c_long crc32c_short.

(** ** Appending zero bytes *)

Lemma zero_byte_eq (x : Z) :
  zero_byte x = get2 crc32c_sw_lookup_table 0 (x .& 0xff) .^ (x >> 8).
Proof. unfold zero_byte, sw_byte. rewrite Z.lxor_0_r. reflexivity. Qed.

Lemma sw_byte_zero_byte (c b : Z) :
  0 <= b < 256 -> sw_byte c b = zero_byte (c .^ b).
Proof.
  intros Hb. rewrite zero_byte_eq. unfold sw_byte.
  rewrite Z.shiftr_lxor, (byte_high_zero b Hb), Z.lxor_0_r. reflexivity.
Qed.

Lemma zero_byte_bits (v : Z) : zero_byte v = Nat.iter 8 bit_step v.
Proof.
  rewrite zero_byte_eq.
  rewrite (split_low_byte v) at 3.
  rewrite (iter_lxor _ bit_step_lxor).
  rewrite <- lookup_row0 by apply land_255_range.
  f_equal. symmetry. apply (bit_steps_shiftl (v >> 8) 8).
Qed.

Lemma zero_byte_lxor (a b : Z) : zero_byte (a .^ b) = zero_byte a .^ zero_byte b.
Proof. rewrite !zero_byte_bits. apply iter_lxor, bit_step_lxor. Qed.

Lemma zero_byte_shiftl (w : Z) : zero_byte (w << 8) = w.
Proof. rewrite zero_byte_bits. apply (bit_steps_shiftl w 8). Qed.

Lemma zero_byte_0 : zero_byte 0 = 0.
Proof. vm_compute. reflexivity. Qed.

Lemma zero_byte_range (x : Z) : 0 <= x < 2 ^ 32 -> 0 <= zero_byte x < 2 ^ 32.
Proof.
  intros Hx. rewrite zero_byte_bits.
  apply (Nat.iter_invariant 8 _ bit_step (fun x => 0 <= x < 2 ^ 32));
    [apply bit_step_range|exact Hx].
Qed.

Lemma zero_bytes_lxor (n : nat) (a b : Z) :
  Nat.iter n zero_byte (a .^ b) = Nat.iter n zero_byte a .^ Nat.iter n zero_byte b.
Proof. apply iter_lxor, zero_byte_lxor. Qed.

Lemma zero_bytes_0 (n : nat) : Nat.iter n zero_byte 0 = 0.
Proof. induction n as [|n IH]; simpl; [reflexivity|rewrite IH; reflexivity]. Qed.

Lemma zero_bytes_range (n : nat) (x : Z) :
  0 <= x < 2 ^ 32 -> 0 <= Nat.iter n zero_byte x < 2 ^ 32.
Proof.
  apply (Nat.iter_invariant n _ zero_byte (fun x => 0 <= x < 2 ^ 32)).
  apply zero_byte_range.
Qed.

(** ** Bytes, loads and the byte-at-a-time reference *)

Lemma load8_byte (mem : memory) (p : Z) : is_byte (load8 mem p).
Proof.
  unfold is_byte, load8. pose proof (Byte.to_N_bounded (mem p)). lia.
Qed.

Lemma load_bytes (mem : memory) (p n : Z) : Forall is_byte (load mem p n).
Proof.
  unfold load. apply Forall_forall. intros b Hb.
  apply in_map_iff in Hb. destruct Hb as [i [<- _]]. apply load8_byte.
Qed.

Lemma load_length (mem : memory) (p n : Z) :
  length (load mem p n) = Z.to_nat n.
Proof. unfold load. rewrite length_map, length_seq. reflexivity. Qed.

Lemma map_seq_shift {A : Type} (f : nat -> A) (a n : nat) :
  map f (seq a n) = map (fun i => f (a + i)%nat) (seq 0 n).
Proof.
  revert a. induction n as [|n IH]; intros a; simpl; [reflexivity|].
  rewrite Nat.add_0_r. f_equal.
  rewrite IH, <- seq_shift, map_map.
  apply map_ext. intros i. f_equal. lia.
Qed.

Lemma load_app (mem : memory) (p n m : Z) :
  0 <= n -> 0 <= m ->
  load mem p (n + m) = load mem p n ++ load mem (p + n) m.
Proof.
  intros Hn Hm. unfold load.
  rewrite Z2Nat.inj_add, seq_app, map_app by lia. f_equal.
  rewrite map_seq_shift. apply map_ext. intros i. f_equal. lia.
Qed.

Lemma load_1 (mem : memory) (p : Z) : load mem p 1 = [load8 mem p].
Proof. unfold load. simpl. rewrite Z.add_0_r. reflexivity. Qed.

Lemma sw_byte_range (c b : Z) :
  0 <= c < 2 ^ 32 -> 0 <= sw_byte c b < 2 ^ 32.
Proof.
  intros Hc. unfold sw_byte. apply lxor_range; [lia| |].
  - apply lookup_row0_range, land_255_range.
  - apply shiftr_range; lia.
Qed.

Lemma crc_bytes_range (bs : list Z) (c : Z) :
  0 <= c < 2 ^ 32 -> 0 <= crc_bytes c bs < 2 ^ 32.
Proof.
  revert c. induction bs as [|b bs IH]; intros c Hc; simpl; [exact Hc|].
  apply IH, sw_byte_range, Hc.
Qed.

Lemma crc_bytes_app (c : Z) (bs1 bs2 : list Z) :
  crc_bytes c (bs1 ++ bs2) = crc_bytes (crc_bytes c bs1) bs2.
Proof. apply fold_left_app. Qed.

(** The register is linear over GF(2): the checksum of [bs] from [a ^ b]
    is [a] moved past [length bs] zero bytes, XOR the checksum from [b]. *)
Lemma crc_bytes_lxor (bs : list Z) (a b : Z) :
  Forall is_byte bs ->
  crc_bytes (a .^ b) bs = Nat.iter (length bs) zero_byte a .^ crc_bytes b bs.
Proof.
  intros Hbs. revert a b.
  induction Hbs as [|x bs Hx _ IH]; intros a b; [reflexivity|].
  cbn [crc_bytes fold_left length]. fold (crc_bytes (sw_byte (a .^ b) x) bs).
  fold (crc_bytes (sw_byte b x) bs).
  rewrite Nat.iter_succ_r, <- IH. f_equal.
  rewrite !sw_byte_zero_byte by exact Hx.
  rewrite <- zero_byte_lxor. f_equal. xor_ac.
Qed.

Lemma crc_bytes_shift (bs : list Z) (a : Z) :
  Forall is_byte bs ->
  crc_bytes a bs = Nat.iter (length bs) zero_byte a .^ crc_bytes 0 bs.
Proof.
  intros Hbs. rewrite <- (Z.lxor_0_r a) at 1. apply crc_bytes_lxor, Hbs.
Qed.

Lemma byte_disjoint (b r : Z) : is_byte b -> b .& (r << 8) = 0.
Proof.
  intros Hb. rewrite <- (byte_land_255 b Hb).
  apply Z.bits_inj'; intros i Hi.
  rewrite !Z.land_spec, testbit_255, Z.shiftl_spec, Z.bits_0 by lia.
  destruct (Z.ltb_spec i 8).
  - rewrite (Z.testbit_neg_r _ (i - 8)) by lia. btauto.
  - btauto.
Qed.

Lemma le_combine_cons_lxor (b : Z) (bs : list Z) :
  is_byte b -> le_combine (b :: bs) = b .^ (le_combine bs << 8).
Proof.
  intros Hb. simpl. symmetry. apply Z.lxor_lor, byte_disjoint, Hb.
Qed.

Lemma le_combine_range (bs : list Z) :
  Forall is_byte bs -> 0 <= le_combine bs < 2 ^ (8 * Z.of_nat (length bs)).
Proof.
  induction 1 as [|b bs Hb _ IH]; [simpl; lia|].
  rewrite le_combine_cons_lxor by exact Hb.
  rewrite <- Z.add_nocarry_lxor by (apply byte_disjoint, Hb).
  rewrite Z.shiftl_mul_pow2 by lia.
  replace (8 * Z.of_nat (length (b :: bs)))
    with (8 + 8 * Z.of_nat (length bs)) by (simpl length; lia).
  rewrite Z.pow_add_r by lia. unfold is_byte in Hb.
  change (2 ^ 8) with 256. nia.
Qed.

(** Folding a little-endian word in one go: XOR it into the register and
    move past as many zero bytes as the word has bytes. *)
Lemma zero_bytes_le_combine (bs : list Z) (c : Z) :
  Forall is_byte bs ->
  Nat.iter (length bs) zero_byte (c .^ le_combine bs) = crc_bytes c bs.
Proof.
  intros Hbs. revert c.
  induction Hbs as [|b bs Hb _ IH]; intros c; [simpl; apply Z.lxor_0_r|].
  rewrite le_combine_cons_lxor by exact Hb.
  cbn [length crc_bytes fold_left]. fold (crc_bytes (sw_byte c b) bs).
  rewrite Nat.iter_succ_r, <- IH. f_equal.
  rewrite <- Z.lxor_assoc, zero_byte_lxor, zero_byte_shiftl.
  rewrite (sw_byte_zero_byte c b Hb). reflexivity.
Qed.

(** ** The per-word folds *)

(** Row [k] of the byte table moves a byte past [k + 1] zero bytes. *)
Lemma lookup_rows (k : nat) (v : Z) :
  (k <= 7)%nat -> is_byte v ->
  get2 crc32c_sw_lookup_table k v = Nat.iter (S k) zero_byte v.
Proof.
  intros Hk Hv. induction k as [|k IH].
  - cbn [Nat.iter nat_rect]. rewrite zero_byte_eq.
    rewrite (byte_land_255 v Hv), (byte_high_zero v Hv), Z.lxor_0_r.
    reflexivity.
  - rewrite lookup_row_succ by (unfold is_byte in Hv; lia).
    rewrite IH by lia. reflexivity.
Qed.

Lemma zero_bytes_split (k : nat) (y : Z) :
  Nat.iter (S k) zero_byte y
  = Nat.iter (S k) zero_byte (y .& 0xff) .^ Nat.iter k zero_byte (y >> 8).
Proof.
  rewrite (split_low_byte y) at 1.
  rewrite zero_bytes_lxor. f_equal.
  rewrite Nat.iter_succ_r, zero_byte_shiftl. reflexivity.
Qed.

Lemma load64_range (mem : memory) (p : Z) : 0 <= load64 mem p < 2 ^ 64.
Proof.
  unfold load64.
  pose proof (le_combine_range (load mem p 8) (load_bytes mem p 8)) as H.
  rewrite load_length in H. exact H.
Qed.

(** The eight lookups of [crc32c_sw_inner] move the register, with the
    word XORed in, past eight zero bytes. *)
Lemma crc32c_sw_inner_zero_bytes (mem : memory) (c p : Z) :
  0 <= c < 2 ^ 64 ->
  crc32c_sw_inner mem c p = Nat.iter 8 zero_byte (c .^ load64 mem p).
Proof.
  intros Hc. unfold crc32c_sw_inner. cbv zeta.
  pose proof (lxor_range 64 c (load64 mem p) ltac:(lia) Hc (load64_range mem p))
    as Hx.
  set (x := c .^ load64 mem p) in *.
  assert (H56 : is_byte (x >> 56)).
  { unfold is_byte. rewrite Z.shiftr_div_pow2 by lia.
    change (2 ^ 64) with (2 ^ 56 * 256) in Hx.
    split; [apply Z.div_pos; lia|apply Z.div_lt_upper_bound; lia]. }
  rewrite !lookup_rows by (try apply land_255_range; try exact H56; lia).
  rewrite (zero_bytes_split 7 x).
  rewrite (zero_bytes_split 6 (x >> 8)), Z.shiftr_shiftr by lia.
  rewrite (zero_bytes_split 5 (x >> (8 + 8))), Z.shiftr_shiftr by lia.
  rewrite (zero_bytes_split 4 (x >> (8 + 8 + 8))), Z.shiftr_shiftr by lia.
  rewrite (zero_bytes_split 3 (x >> (8 + 8 + 8 + 8))), Z.shiftr_shiftr by lia.
  rewrite (zero_bytes_split 2 (x >> (8 + 8 + 8 + 8 + 8))), Z.shiftr_shiftr by lia.
  rewrite (zero_bytes_split 1 (x >> (8 + 8 + 8 + 8 + 8 + 8))), Z.shiftr_shiftr by lia.
  change (8 + 8 + 8 + 8 + 8 + 8 + 8) with 56.
  change (8 + 8 + 8 + 8 + 8 + 8) with 48.
  change (8 + 8 + 8 + 8 + 8) with 40.
  change (8 + 8 + 8 + 8) with 32.
  change (8 + 8 + 8) with 24.
  change (8 + 8) with 16.
  rewrite !Z.lxor_assoc. reflexivity.
Qed.

Lemma crc32c_sw_inner_bytes (mem : memory) (c p : Z) :
  0 <= c < 2 ^ 32 ->
  crc32c_sw_inner mem c p = crc_bytes c (load mem p 8).
Proof.
  intros Hc. rewrite crc32c_sw_inner_zero_bytes by lia.
  unfold load64.
  rewrite <- (zero_bytes_le_combine _ c (load_bytes mem p 8)), load_length.
  reflexivity.
Qed.

Lemma iter_ext {A : Type} (f g : A -> A) :
  (forall x, f x = g x) -> forall n x, Nat.iter n f x = Nat.iter n g x.
Proof.
  intros H n x. induction n as [|n IH]; simpl; [reflexivity|].
  rewrite IH. apply H.
Qed.

Lemma iter_mul {A : Type} (f : A -> A) (n m : nat) (x : A) :
  Nat.iter (n * m) f x = Nat.iter n (Nat.iter m f) x.
Proof.
  induction n as [|n IH]; [reflexivity|].
  cbn [Nat.mul]. rewrite Nat.iter_add, IH. reflexivity.
Qed.

Lemma to_u32_small (x : Z) : 0 <= x < 2 ^ 32 -> to_u32 x = x.
Proof.
  intros Hx. unfold to_u32, u32_max. change 0xFFFFFFFF with (Z.ones 32).
  rewrite Z.land_ones by lia. apply Z.mod_small. exact Hx.
Qed.

Lemma hw_byte_sw_byte (c b : Z) :
  0 <= c < 2 ^ 32 -> is_byte b -> hw_byte c b = sw_byte c b.
Proof.
  intros Hc Hb. unfold hw_byte, mm_crc32_u8.
  rewrite to_u32_small, <- zero_byte_bits by exact Hc.
  symmetry. apply sw_byte_zero_byte, Hb.
Qed.

Lemma hw_word_bytes (mem : memory) (c p : Z) :
  0 <= c < 2 ^ 32 -> hw_word mem c p = crc_bytes c (load mem p 8).
Proof.
  intros Hc. unfold hw_word, mm_crc32_u64. rewrite to_u32_small by exact Hc.
  change 64%nat with (8 * 8)%nat. rewrite iter_mul.
  rewrite (iter_ext _ zero_byte) by (intros; symmetry; apply zero_byte_bits).
  unfold load64.
  rewrite <- (zero_bytes_le_combine _ c (load_bytes mem p 8)), load_length.
  reflexivity.
Qed.

(** ** Arrays and [for] loops *)

Lemma for_loop_ind {St : Type} (P : nat -> St -> Prop) (body : nat -> St -> St)
      (lo n : nat) (s : St) :
  P lo s ->
  (forall i s, (lo <= i < lo + n)%nat -> P i s -> P (S i) (body i s)) ->
  P (lo + n)%nat (for_loop lo n body s).
Proof.
  unfold for_loop. intros H0 Hstep. induction n as [|n IH].
  - rewrite Nat.add_0_r. exact H0.
  - rewrite seq_S, fold_left_app. cbn [fold_left].
    rewrite Nat.add_succ_r. apply Hstep; [lia|].
    apply IH. intros i s' Hi. apply Hstep. lia.
Qed.

Lemma length_upd {A : Type} (l : list A) (i : nat) (v : A) :
  length (upd l i v) = length l.
Proof.
  revert i. induction l as [|h t IH]; intros [|i]; simpl; try reflexivity.
  rewrite IH. reflexivity.
Qed.

Lemma nth_upd {A : Type} (l : list A) (i j : nat) (v d : A) :
  (i < length l)%nat ->
  nth j (upd l i v) d = if (i =? j)%nat then v else nth j l d.
Proof.
  revert i j. induction l as [|h t IH]; intros [|i] [|j] Hi; simpl in *;
    try lia; try reflexivity.
  apply IH. lia.
Qed.

Lemma nth_upd2 (t : table) (x i y j : nat) (v : Z) :
  (x < length t)%nat -> (i < length (nth x t []))%nat ->
  nth j (nth y (upd2 t x i v) []) 0
  = if ((x =? y) && (i =? j))%nat then v else nth j (nth y t []) 0.
Proof.
  intros Hx Hi. unfold upd2. rewrite nth_upd by exact Hx.
  destruct (Nat.eqb_spec x y) as [->|_]; [|reflexivity].
  rewrite nth_upd by exact Hi. reflexivity.
Qed.

Lemma shaped_upd2 (rows cols : nat) (t : table) (x i : nat) (v : Z) :
  shaped rows cols t -> (x < rows)%nat -> shaped rows cols (upd2 t x i v).
Proof.
  intros [Hl Hr] Hx. unfold upd2. split.
  - rewrite length_upd. exact Hl.
  - intros y Hy. rewrite nth_upd by lia.
    destruct (Nat.eqb_spec x y) as [->|_]; [|apply Hr, Hy].
    rewrite length_upd. apply Hr, Hy.
Qed.

(** A [for] loop that writes [f i] at every index of a [n]-element array. *)
Lemma for_loop_fill (f : nat -> Z) (n : nat) (a : list Z) :
  length a = n ->
  for_loop 0 n (fun i a => upd a i (f i)) a = map f (seq 0 n).
Proof.
  intros Ha.
  pose proof (for_loop_ind
                (fun k b => length b = n /\
                            forall j, (j < k)%nat -> nth j b 0 = f j)
                (fun i a => upd a i (f i)) 0 n a) as H.
  destruct H as [Hl Hn].
  - split; [exact Ha|]. intros j Hj. lia.
  - intros i b Hi [Hl Hn]. split; [rewrite length_upd; exact Hl|].
    intros j Hj. rewrite nth_upd by lia.
    destruct (Nat.eqb_spec i j) as [->|Hne]; [reflexivity|]. apply Hn. lia.
  - apply (nth_ext _ _ 0 (f 0%nat)).
    + rewrite length_map, length_seq. exact Hl.
    + intros j Hj. rewrite map_nth, seq_nth by lia. apply Hn. simpl. lia.
Qed.

Lemma map_nth_seq (a : list Z) :
  map (fun i => nth i a 0) (seq 0 (length a)) = a.
Proof.
  apply (nth_ext _ _ ((fun i => nth i a 0) 0%nat) 0).
  - rewrite length_map, length_seq. reflexivity.
  - intros j Hj. rewrite length_map, length_seq in Hj.
    etransitivity; [apply (map_nth (fun i => nth i a 0))|].
    rewrite seq_nth by exact Hj. reflexivity.
Qed.

(** ** Matrix times vector over GF(2) *)

Lemma gf2_sum_0 (mat : list Z) : gf2_sum mat 0 = 0.
Proof. induction mat as [|row mat IH]; simpl; [reflexivity|exact IH]. Qed.

Lemma gf2_loop_sum (mat : list Z) (vec sum : Z) :
  0 <= vec -> gf2_matrix_times_loop mat vec sum = sum .^ gf2_sum mat vec.
Proof.
  revert vec sum. induction mat as [|row mat IH]; intros vec sum Hv.
  - simpl. rewrite Z.lxor_0_r. destruct (vec >? 0); reflexivity.
  - cbn [gf2_matrix_times_loop gf2_sum].
    destruct (Z.gtb_spec vec 0) as [Hpos|Hle].
    + rewrite IH by (apply Z.shiftr_nonneg; lia).
      rewrite land_1_odd. destruct (Z.odd vec).
      * apply Z.lxor_assoc.
      * rewrite Z.lxor_0_l. reflexivity.
    + assert (vec = 0) as -> by lia.
      change (0 >> 1) with 0. rewrite gf2_sum_0.
      change (Z.odd 0) with false. cbv iota.
      rewrite !Z.lxor_0_r. reflexivity.
Qed.

Lemma gf2_matrix_times_sum (mat : list Z) (vec : Z) :
  0 <= vec -> gf2_matrix_times mat vec = gf2_sum mat vec.
Proof.
  intros Hv. unfold gf2_matrix_times.
  rewrite gf2_loop_sum by exact Hv. apply Z.lxor_0_l.
Qed.

Lemma gf2_sum_lxor (mat : list Z) (a b : Z) :
  gf2_sum mat (a .^ b) = gf2_sum mat a .^ gf2_sum mat b.
Proof.
  revert a b. induction mat as [|row mat IH]; intros a b; simpl; [reflexivity|].
  rewrite Z.shiftr_lxor, IH, odd_lxor.
  destruct (Z.odd a), (Z.odd b); simpl; xor_ac.
Qed.

Lemma gf2_matrix_times_lxor (mat : list Z) (a b : Z) :
  0 <= a -> 0 <= b ->
  gf2_matrix_times mat (a .^ b)
  = gf2_matrix_times mat a .^ gf2_matrix_times mat b.
Proof.
  intros Ha Hb.
  rewrite !gf2_matrix_times_sum by (try apply Z.lxor_nonneg; lia).
  apply gf2_sum_lxor.
Qed.

Lemma gf2_sum_range (mat : list Z) (vec : Z) :
  (forall row, In row mat -> 0 <= row < 2 ^ 32) ->
  0 <= gf2_sum mat vec < 2 ^ 32.
Proof.
  revert vec. induction mat as [|row mat IH]; intros vec Hrows;
    cbn [gf2_sum]; [lia|].
  apply lxor_range; [lia| |apply IH; intros r Hr; apply Hrows; right; exact Hr].
  destruct (Z.odd vec); [apply Hrows; left; reflexivity|lia].
Qed.

(** A linear map commutes with the sum. *)
Lemma gf2_sum_map (g : Z -> Z) (mat : list Z) (vec : Z) :
  g 0 = 0 -> (forall a b, g (a .^ b) = g a .^ g b) ->
  gf2_sum (map g mat) vec = g (gf2_sum mat vec).
Proof.
  intros g0 glin. revert vec.
  induction mat as [|row mat IH]; intros vec; simpl; [symmetry; exact g0|].
  rewrite glin, IH. f_equal. destruct (Z.odd vec); [reflexivity|].
  symmetry. exact g0.
Qed.

(** The rows [2^k, 2^(k+1), ...]: a shifted identity. *)
Lemma gf2_sum_identity (n k : nat) (w : Z) :
  gf2_sum (map (fun i => 2 ^ Z.of_nat i) (seq k n)) w
  = (w .& Z.ones (Z.of_nat n)) << Z.of_nat k.
Proof.
  revert k w. induction n as [|n IH]; intros k w.
  - simpl. rewrite Z.land_0_r, Z.shiftl_0_l. reflexivity.
  - cbn [seq map gf2_sum]. rewrite IH.
    apply Z.bits_inj'; intros i Hi.
    rewrite Z.lxor_spec, !Z.shiftl_spec by lia.
    destruct (Z.lt_trichotomy i (Z.of_nat k)) as [Hlt|[Heq|Hgt]].
    + rewrite !(Z.testbit_neg_r _ (i - _)) by lia.
      destruct (Z.odd w);
        [rewrite Z.pow2_bits_false by lia|rewrite Z.bits_0]; reflexivity.
    + subst i. rewrite (Z.testbit_neg_r _ (_ - Z.of_nat (S k))) by lia.
      rewrite Z.sub_diag, Z.land_spec, Z.bit0_odd.
      rewrite Z.testbit_ones_nonneg by lia.
      destruct (Z.odd w);
        [rewrite Z.pow2_bits_true by lia|rewrite Z.bits_0];
        destruct (Z.ltb_spec 0 (Z.of_nat (S n))); try lia; reflexivity.
    + rewrite !Z.land_spec, Z.shiftr_spec by lia.
      rewrite !Z.testbit_ones_nonneg by lia.
      replace (i - Z.of_nat (S k) + 1) with (i - Z.of_nat k) by lia.
      replace (Z.testbit (if Z.odd w then 2 ^ Z.of_nat k else 0) i) with false.
      * destruct (Z.ltb_spec (i - Z.of_nat (S k)) (Z.of_nat n));
          destruct (Z.ltb_spec (i - Z.of_nat k) (Z.of_nat (S n)));
          try lia; reflexivity.
      * destruct (Z.odd w);
          [rewrite Z.pow2_bits_false by lia|rewrite Z.bits_0]; reflexivity.
Qed.

(** ** Operators *)

Lemma represents_ext (mat : list Z) (f g : Z -> Z) :
  (forall v, 0 <= v < 2 ^ 32 -> f v = g v) ->
  represents mat f -> represents mat g.
Proof.
  intros Hfg (Hl & Hr & Hf). split; [exact Hl|split; [exact Hr|]].
  intros v Hv. rewrite <- Hfg by exact Hv. apply Hf, Hv.
Qed.

Lemma represents_range (mat : list Z) (f : Z -> Z) (v : Z) :
  represents mat f -> 0 <= v < 2 ^ 32 -> 0 <= f v < 2 ^ 32.
Proof.
  intros (Hl & Hr & Hf) Hv. rewrite <- Hf by exact Hv.
  rewrite gf2_matrix_times_sum by lia. apply gf2_sum_range, Hr.
Qed.

Lemma gf2_matrix_square_map (square mat : list Z) :
  length square = 32%nat -> length mat = 32%nat ->
  gf2_matrix_square square mat = map (gf2_matrix_times mat) mat.
Proof.
  intros Hs Hm. unfold gf2_matrix_square.
  rewrite (for_loop_fill
             (fun n => gf2_matrix_times mat (get mat (Z.of_nat n))))
    by exact Hs.
  transitivity (map (gf2_matrix_times mat)
                    (map (fun i => nth i mat 0) (seq 0 (length mat))));
    [|rewrite map_nth_seq; reflexivity].
  rewrite Hm, map_map.
  apply map_ext. intros n. unfold get. rewrite Nat2Z.id. reflexivity.
Qed.

(** Squaring an operator composes it with itself. *)
Lemma gf2_matrix_square_represents (square mat : list Z) (f : Z -> Z) :
  length square = 32%nat -> represents mat f ->
  represents (gf2_matrix_square square mat) (fun v => f (f v)).
Proof.
  intros Hs Hrep. pose proof Hrep as (Hl & Hr & Hf).
  rewrite gf2_matrix_square_map by assumption.
  assert (Hmap : map (gf2_matrix_times mat) mat = map (gf2_sum mat) mat).
  { apply map_ext_in. intros row Hin. apply gf2_matrix_times_sum.
    apply Hr, Hin. }
  rewrite Hmap. split; [rewrite length_map; exact Hl|]. split.
  - intros row Hin. apply in_map_iff in Hin. destruct Hin as [r [<- _]].
    apply gf2_sum_range, Hr.
  - intros v Hv. rewrite gf2_matrix_times_sum by lia.
    rewrite gf2_sum_map by (first [apply gf2_sum_0|apply gf2_sum_lxor]).
    rewrite <- (gf2_matrix_times_sum mat v) by lia.
    rewrite (Hf v Hv).
    pose proof (represents_range mat f v Hrep Hv).
    rewrite <- gf2_matrix_times_sum by lia. apply Hf. assumption.
Qed.

Lemma gf2_matrix_square_length (square mat : list Z) :
  length square = 32%nat -> length mat = 32%nat ->
  length (gf2_matrix_square square mat) = 32%nat.
Proof.
  intros Hs Hm. rewrite gf2_matrix_square_map by assumption.
  rewrite length_map. exact Hm.
Qed.

(** ** The zeros operator *)

(** What the first loop of [crc32c_zeros_op] leaves in [odd]. *)
Lemma one_zero_bit_rows :
  for_loop 1 31 (fun n '(odd, row) => (upd odd n row, row << 1))
    (upd (repeat 0 32) 0 CRC32C_POLYNOMIAL_REV, 1)
  = (CRC32C_POLYNOMIAL_REV :: map (fun i => 2 ^ Z.of_nat i) (seq 0 31), 2 ^ 31).
Proof. vm_compute. reflexivity. Qed.

Lemma one_zero_bit_represents :
  represents (CRC32C_POLYNOMIAL_REV :: map (fun i => 2 ^ Z.of_nat i) (seq 0 31))
    (Nat.iter 1 bit_step).
Proof.
  split; [reflexivity|]. split.
  - assert (H : forallb (fun row => (0 <=? row) && (row <? 2 ^ 32))
                  (CRC32C_POLYNOMIAL_REV
                   :: map (fun i => 2 ^ Z.of_nat i) (seq 0 31)) = true)
      by (vm_compute; reflexivity).
    rewrite forallb_forall in H. intros row Hin.
    specialize (H row Hin). lia.
  - intros v Hv. rewrite gf2_matrix_times_sum by lia.
    cbn [gf2_sum Nat.iter nat_rect]. rewrite gf2_sum_identity.
    rewrite Z.shiftl_0_r, bit_step_odd.
    assert (Hs : (v >> 1) .& Z.ones (Z.of_nat 31) = v >> 1).
    { rewrite Z.land_ones by lia. apply Z.mod_small.
      rewrite Z.shiftr_div_pow2 by lia.
      change (2 ^ 32) with (2 ^ 1 * 2 ^ Z.of_nat 31) in Hv.
      split; [apply Z.div_pos; lia|apply Z.div_lt_upper_bound; lia]. }
    rewrite Hs. destruct (Z.odd v); [apply Z.lxor_comm|apply Z.lxor_0_l].
Qed.

Lemma bit_steps_square (mat square : list Z) (n : nat) :
  length square = 32%nat ->
  represents mat (Nat.iter n bit_step) ->
  represents (gf2_matrix_square square mat) (Nat.iter (2 * n) bit_step).
Proof.
  intros Hs Hrep.
  apply (represents_ext _ (fun v => Nat.iter n bit_step (Nat.iter n bit_step v))).
  - intros v _. replace (2 * n)%nat with (n + n)%nat by lia.
    rewrite Nat.iter_add. reflexivity.
  - apply (gf2_matrix_square_represents square mat _ Hs Hrep).
Qed.

Lemma zeros_op_loop_eq (fuel : nat) (even odd : list Z) (len : Z) :
  zeros_op_loop fuel even odd len
  = if len >> 1 =? 0 then Returned (gf2_matrix_square even odd)
    else if len >> 1 >> 1 >? 0 then
           match fuel with
           | O => Fell_out (gf2_matrix_square even odd)
                    (gf2_matrix_square odd (gf2_matrix_square even odd))
           | S fuel' =>
               zeros_op_loop fuel' (gf2_matrix_square even odd)
                 (gf2_matrix_square odd (gf2_matrix_square even odd))
                 (len >> 1 >> 1)
           end
         else Fell_out (gf2_matrix_square even odd)
                (gf2_matrix_square odd (gf2_matrix_square even odd)).
Proof. destruct fuel; reflexivity. Qed.

Lemma shiftr_1_div (len : Z) : len >> 1 = len / 2.
Proof. rewrite Z.shiftr_div_pow2 by lia. reflexivity. Qed.

(** The loop squares once per bit of [len] and so reaches the operator of
    [2 ^ log2 len] times the bits that one squaring of [odd] covers. *)
Lemma zeros_op_loop_represents (fuel : nat) :
  forall (even odd : list Z) (len : Z) (n : nat),
    length even = 32%nat ->
    represents odd (Nat.iter n bit_step) ->
    1 <= len -> Z.log2 len <= Z.of_nat fuel ->
    represents (zeros_op_answer (zeros_op_loop fuel even odd len))
      (Nat.iter (Z.to_nat (2 ^ Z.log2 len) * (2 * n)) bit_step)
    /\ (forall e o, zeros_op_loop fuel even odd len = Fell_out e o ->
                    length e = 32%nat).
Proof.
  induction fuel as [|fuel IH]; intros even odd len n He Hodd Hlen Hfuel;
    rewrite zeros_op_loop_eq;
    pose proof (bit_steps_square odd even n He Hodd) as Heven1;
    pose proof Hodd as (Ho & _ & _);
    pose proof (gf2_matrix_square_length even odd He Ho) as He1;
    pose proof (bit_steps_square _ odd _ Ho Heven1) as Hodd1;
    rewrite !shiftr_1_div;
    (destruct (Z.eqb_spec (len / 2) 0) as [H2|H2];
     [assert (len = 1) as -> by (Z.div_mod_to_equations; lia);
      split; [|discriminate];
      cbn [zeros_op_answer];
      replace (Z.to_nat (2 ^ Z.log2 1) * (2 * n))%nat with (2 * n)%nat
        by (change (Z.to_nat (2 ^ Z.log2 1)) with 1%nat; lia);
      exact Heven1 |]);
    (destruct (Z.gtb_spec (len / 2 / 2) 0) as [H4|H4]).
  - exfalso. assert (2 ^ 2 <= len) by (Z.div_mod_to_equations; lia).
    apply Z.log2_le_pow2 in H; lia.
  - assert (Z.log2 len = 1) as ->
        by (apply Z.log2_unique; [lia|]; Z.div_mod_to_equations; lia).
    split; [|intros e o [= <- _]; exact He1].
    cbn [zeros_op_answer].
    replace (Z.to_nat (2 ^ 1) * (2 * n))%nat with (2 * (2 * n))%nat
      by (change (Z.to_nat (2 ^ 1)) with 2%nat; lia).
    exact Hodd1.
  - assert (H22 : 2 ^ 2 <= len) by (Z.div_mod_to_equations; lia).
    apply Z.log2_le_pow2 in H22; [|lia].
    assert (Hlog : Z.log2 (len / 2 / 2) = Z.log2 len - 2).
    { rewrite <- !shiftr_1_div, Z.shiftr_shiftr, Z.log2_shiftr by lia. lia. }
    destruct (IH (gf2_matrix_square even odd)
                 (gf2_matrix_square odd (gf2_matrix_square even odd))
                 (len / 2 / 2) (2 * (2 * n))%nat He1 Hodd1
                 ltac:(lia) ltac:(lia)) as [Hrep Hfell].
    split; [|exact Hfell].
    assert (Hpow : Z.to_nat (2 ^ Z.log2 len)
                   = (Z.to_nat (2 ^ Z.log2 (len / 2 / 2)) * 4)%nat).
    { rewrite Hlog.
      replace (Z.log2 len) with (Z.log2 len - 2 + 2) at 1 by lia.
      rewrite Z.pow_add_r, Z2Nat.inj_mul by (try apply Z.pow_nonneg; lia).
      reflexivity. }
    rewrite Hpow.
    replace (Z.to_nat (2 ^ Z.log2 (len / 2 / 2)) * 4 * (2 * n))%nat
      with (Z.to_nat (2 ^ Z.log2 (len / 2 / 2)) * (2 * (2 * (2 * n))))%nat
      by lia.
    exact Hrep.
  - assert (Z.log2 len = 1) as ->
        by (apply Z.log2_unique; [lia|]; Z.div_mod_to_equations; lia).
    split; [|intros e o [= <- _]; exact He1].
    cbn [zeros_op_answer].
    replace (Z.to_nat (2 ^ 1) * (2 * n))%nat with (2 * (2 * n))%nat
      by (change (Z.to_nat (2 ^ 1)) with 2%nat; lia).
    exact Hodd1.
Qed.

Lemma crc32c_zeros_op_represents (even : list Z) (len : Z) :
  length even = 32%nat -> 1 <= len ->
  represents (crc32c_zeros_op even len)
    (Nat.iter (Z.to_nat (2 ^ Z.log2 len)) zero_byte).
Proof.
  intros He Hlen. unfold crc32c_zeros_op.
  rewrite one_zero_bit_rows. cbv beta iota zeta.
  set (odd0 := CRC32C_POLYNOMIAL_REV :: map (fun i => 2 ^ Z.of_nat i) (seq 0 31)).
  pose proof one_zero_bit_represents as H1. fold odd0 in H1.
  pose proof H1 as (Ho0 & _ & _).
  pose proof (bit_steps_square odd0 even 1 He H1) as H2.
  pose proof (gf2_matrix_square_length even odd0 He Ho0) as He1.
  pose proof (bit_steps_square _ odd0 _ Ho0 H2) as H4.
  destruct (zeros_op_loop_represents (Z.to_nat (Z.log2 len)) _ _ len _
              He1 H4 Hlen ltac:(pose proof (Z.log2_nonneg len); lia))
    as [Hrep Hfell].
  assert (Hbytes : represents
                     (zeros_op_answer
                        (zeros_op_loop (Z.to_nat (Z.log2 len))
                           (gf2_matrix_square even odd0)
                           (gf2_matrix_square odd0 (gf2_matrix_square even odd0))
                           len))
                     (Nat.iter (Z.to_nat (2 ^ Z.log2 len)) zero_byte)).
  { revert Hrep. apply represents_ext. intros v _.
    change (2 * (2 * (2 * 1)))%nat with 8%nat. rewrite iter_mul.
    apply iter_ext. intros x. symmetry. apply zero_byte_bits. }
  clear Hrep.
  destruct (zeros_op_loop _ _ _ len) as [e|e o]; cbn [zeros_op_answer] in Hbytes;
    [exact Hbytes|].
  pose proof Hbytes as (Ho & _ & _).
  rewrite (for_loop_fill (fun n => get o (Z.of_nat n)))
    by (apply (Hfell e o); reflexivity).
  replace (map (fun n => get o (Z.of_nat n)) (seq 0 32)) with o; [exact Hbytes|].
  rewrite <- (map_nth_seq o) at 1. rewrite Ho.
  apply map_ext. intros n. unfold get. rewrite Nat2Z.id. reflexivity.
Qed.

(** ** Shift tables *)

Lemma shaped_zero_table (rows cols : nat) : shaped rows cols (zero_table rows cols).
Proof.
  unfold shaped, zero_table. split; [apply repeat_length|].
  intros x Hx. rewrite (nth_indep _ [] (repeat 0 cols))
    by (rewrite repeat_length; exact Hx).
  rewrite nth_repeat. apply repeat_length.
Qed.

Lemma crc32c_zeros_fill_spec (op : list Z) (zeros : table) :
  shaped 4 256 zeros ->
  shaped 4 256 (crc32c_zeros_fill op zeros) /\
  forall (p : nat) (v : Z),
    (p < 4)%nat -> is_byte v ->
    get2 (crc32c_zeros_fill op zeros) p v
    = gf2_matrix_times op (v << (8 * Z.of_nat p)).
Proof.
  intros Hz. unfold crc32c_zeros_fill.
  pose proof (for_loop_ind
    (fun k t => shaped 4 256 t /\
                forall p j, (p < 4)%nat -> (j < k)%nat ->
                  nth j (nth p t []) 0
                  = gf2_matrix_times op (Z.of_nat j << (8 * Z.of_nat p)))
    (fun n zeros =>
       let v := Z.of_nat n in
       let zeros := upd2 zeros 0 n (gf2_matrix_times op v) in
       let zeros := upd2 zeros 1 n (gf2_matrix_times op (v << 8)) in
       let zeros := upd2 zeros 2 n (gf2_matrix_times op (v << 16)) in
       upd2 zeros 3 n (gf2_matrix_times op (v << 24)))
    0 256 zeros) as H.
  destruct H as [Hs Hn].
  - split; [exact Hz|]. intros p j _ Hj. lia.
  - intros i t Hi [Ht Hold]. cbv zeta.
    set (t1 := upd2 t 0 i _).
    assert (Ht1 : shaped 4 256 t1) by (apply shaped_upd2; [exact Ht|lia]).
    set (t2 := upd2 t1 1 i _).
    assert (Ht2 : shaped 4 256 t2) by (apply shaped_upd2; [exact Ht1|lia]).
    set (t3 := upd2 t2 2 i _).
    assert (Ht3 : shaped 4 256 t3) by (apply shaped_upd2; [exact Ht2|lia]).
    split; [apply shaped_upd2; [exact Ht3|lia]|].
    intros p j Hp Hj.
    rewrite nth_upd2
      by (destruct Ht3 as [L R]; first [rewrite L; lia|rewrite R; lia]).
    unfold t3. rewrite nth_upd2
      by (destruct Ht2 as [L R]; first [rewrite L; lia|rewrite R; lia]).
    unfold t2. rewrite nth_upd2
      by (destruct Ht1 as [L R]; first [rewrite L; lia|rewrite R; lia]).
    unfold t1. rewrite nth_upd2
      by (destruct Ht as [L R]; first [rewrite L; lia|rewrite R; lia]).
    destruct (Nat.eqb_spec i j) as [->|Hne].
    + destruct p as [|[|[|[|p]]]]; try lia; cbn [Nat.eqb andb];
        [rewrite Z.shiftl_0_r|..]; reflexivity.
    + rewrite !andb_false_r. apply Hold; lia.
  - split; [exact Hs|]. intros p v Hp Hv. unfold get2, get.
    rewrite Hn by (unfold is_byte in Hv; lia).
    rewrite Z2Nat.id by (unfold is_byte in Hv; lia). reflexivity.
Qed.

Lemma split_bytes (crc : Z) :
  crc = (crc .& 0xff) .^ ((crc >> 8 .& 0xff) << 8)
        .^ ((crc >> 16 .& 0xff) << 16) .^ (crc >> 24 << 24).
Proof.
  pose proof (split_low_byte crc) as H1.
  pose proof (split_low_byte (crc >> 8)) as H2.
  pose proof (split_low_byte (crc >> 16)) as H3.
  rewrite Z.shiftr_shiftr in H2, H3 by lia.
  change (8 + 8) with 16 in H2. change (16 + 8) with 24 in H3.
  set (c8 := crc >> 8) in *. set (c16 := crc >> 16) in *.
  set (c24 := crc >> 24) in *.
  set (b0 := crc .& 0xff) in *. set (b1 := c8 .& 0xff) in *.
  set (b2 := c16 .& 0xff) in *.
  clearbody b0 b1 b2 c24. clearbody c16. clearbody c8.
  rewrite H1, H2, H3.
  rewrite !Z.shiftl_lxor, !Z.shiftl_shiftl by lia.
  change (8 + 8) with 16. change (16 + 8) with 24.
  rewrite !Z.lxor_assoc. reflexivity.
Qed.

Lemma shiftr_24_byte (crc : Z) : 0 <= crc < 2 ^ 32 -> is_byte (crc >> 24).
Proof.
  intros Hc. unfold is_byte. rewrite Z.shiftr_div_pow2 by lia.
  change (2 ^ 32) with (2 ^ 24 * 256) in Hc.
  split; [apply Z.div_pos; lia|apply Z.div_lt_upper_bound; lia].
Qed.

(** The four lookups of [crc32c_shift] are the product with the operator
    the table was filled from. *)
Lemma crc32c_shift_fill (op : list Z) (zeros : table) (crc : Z) :
  shaped 4 256 zeros -> 0 <= crc < 2 ^ 32 ->
  crc32c_shift (crc32c_zeros_fill op zeros) crc = gf2_matrix_times op crc.
Proof.
  intros Hz Hc. destruct (crc32c_zeros_fill_spec op zeros Hz) as [_ Hget].
  unfold crc32c_shift.
  pose proof (land_255_range crc) as B0.
  pose proof (land_255_range (crc >> 8)) as B1.
  pose proof (land_255_range (crc >> 16)) as B2.
  pose proof (shiftr_24_byte crc Hc) as B3. unfold is_byte in B3.
  rewrite !Hget by (unfold is_byte; lia).
  change (8 * Z.of_nat 0) with 0. change (8 * Z.of_nat 1) with 8.
  change (8 * Z.of_nat 2) with 16. change (8 * Z.of_nat 3) with 24.
  rewrite Z.shiftl_0_r.
  rewrite (split_bytes crc) at 5.
  rewrite !gf2_matrix_times_lxor
    by (repeat first [apply Z.lxor_nonneg; split; intros _
                     |apply Z.shiftl_nonneg|lia]).
  reflexivity.
Qed.

Lemma crc32c_shift_zeros (len crc : Z) :
  1 <= len -> 0 <= crc < 2 ^ 32 ->
  crc32c_shift (crc32c_zeros (zero_table SHIFT_TABLE_X SHIFT_TABLE_Y) len) crc
  = Nat.iter (Z.to_nat (2 ^ Z.log2 len)) zero_byte crc.
Proof.
  intros Hlen Hc. unfold crc32c_zeros. cbv zeta.
  rewrite crc32c_shift_fill by (first [apply shaped_zero_table|exact Hc]).
  destruct (crc32c_zeros_op_represents (repeat 0 32) len
              (repeat_length 0 32) Hlen) as (_ & _ & Hf).
  apply Hf, Hc.
Qed.

Lemma crc32c_shift_short (crc : Z) :
  0 <= crc < 2 ^ 32 ->
  crc32c_shift crc32c_short crc = Nat.iter (Z.to_nat SHORT_BLOCK) zero_byte crc.
Proof.
  intros Hc. rewrite crc32c_short_eq.
  apply (crc32c_shift_zeros SHORT_BLOCK crc); [unfold SHORT_BLOCK; lia|exact Hc].
Qed.

Lemma crc32c_shift_long (crc : Z) :
  0 <= crc < 2 ^ 32 ->
  crc32c_shift crc32c_long crc = Nat.iter (Z.to_nat LONG_BLOCK) zero_byte crc.
Proof.
  intros Hc. rewrite crc32c_long_eq.
  apply (crc32c_shift_zeros LONG_BLOCK crc); [unfold LONG_BLOCK; lia|exact Hc].
Qed.

(** ** [while] loops *)

Lemma while_loop_inv {St : Type} (P : St -> Prop) (m : St -> nat)
      (cond : St -> bool) (body : St -> St) :
  (forall s, P s -> cond s = true -> P (body s) /\ (m (body s) < m s)%nat) ->
  forall fuel s, P s -> (m s <= fuel)%nat ->
    P (while_loop fuel cond body s)
    /\ cond (while_loop fuel cond body s) = false.
Proof.
  intros Hstep fuel. induction fuel as [|fuel IH]; intros s Hs Hm; simpl.
  - split; [exact Hs|]. destruct (cond s) eqn:E; [|reflexivity].
    destruct (Hstep s Hs E) as [_ Hlt]. lia.
  - destruct (cond s) eqn:E; [|split; assumption].
    destruct (Hstep s Hs E) as [Hb Hlt]. apply IH; [exact Hb|lia].
Qed.

(** ** The engines against the byte-at-a-time reference *)

Lemma to_u32_range (x : Z) : 0 <= to_u32 x < 2 ^ 32.
Proof.
  unfold to_u32, u32_max. change 0xFFFFFFFF with (Z.ones 32).
  rewrite Z.land_ones by lia. apply Z.mod_pos_bound. lia.
Qed.

Lemma crc_bytes_load_app (mem : memory) (c p n m : Z) :
  0 <= n -> 0 <= m ->
  crc_bytes (crc_bytes c (load mem p n)) (load mem (p + n) m)
  = crc_bytes c (load mem p (n + m)).
Proof.
  intros Hn Hm. rewrite load_app, crc_bytes_app by assumption. reflexivity.
Qed.

Section EngineCorrect.
Variable mem : memory.
Variable fold_byte : Z -> Z -> Z.
Variable fold_word : memory -> Z -> Z -> Z.

Hypothesis fold_byte_ok :
  forall c b, 0 <= c < 2 ^ 32 -> is_byte b -> fold_byte c b = sw_byte c b.
Hypothesis fold_word_ok :
  forall c p, 0 <= c < 2 ^ 32 ->
              fold_word mem c p = crc_bytes c (load mem p 8).

Variables buf0 len0 c0 : Z.
Hypothesis c0_range : 0 <= c0 < 2 ^ 32.

Local Abbreviation inv := (consumed mem buf0 len0 c0).

Lemma consumed_range (s : cursor) : inv s -> 0 <= crc s < 2 ^ 32.
Proof.
  intros (_ & _ & Hc). rewrite Hc. apply crc_bytes_range, c0_range.
Qed.

Lemma eat_byte_consumed (s : cursor) :
  inv s -> 0 < len s ->
  inv (eat_byte mem fold_byte s)
  /\ (fuel_of (eat_byte mem fold_byte s) < fuel_of s)%nat.
Proof.
  intros Hs Hlen. pose proof (consumed_range s Hs) as Hr.
  destruct Hs as (Hl & Hb & Hc).
  split; [|unfold fuel_of, eat_byte; cbn [len]; lia].
  unfold consumed, eat_byte. cbn [crc buf len].
  split; [lia|]. split; [lia|].
  rewrite fold_byte_ok by (first [exact Hr|apply load8_byte]).
  replace (len0 - (len s - 1)) with (len0 - len s + 1) by lia.
  rewrite <- crc_bytes_load_app, <- Hc, <- Hb, load_1 by lia.
  reflexivity.
Qed.

Lemma eat_word_consumed (s : cursor) :
  inv s -> 8 <= len s ->
  inv (eat_word mem fold_word s)
  /\ (fuel_of (eat_word mem fold_word s) < fuel_of s)%nat.
Proof.
  intros Hs Hlen. pose proof (consumed_range s Hs) as Hr.
  destruct Hs as (Hl & Hb & Hc).
  split; [|unfold fuel_of, eat_word; cbn [len]; lia].
  unfold consumed, eat_word. cbn [crc buf len].
  split; [lia|]. split; [lia|].
  rewrite fold_word_ok by exact Hr.
  replace (len0 - (len s - 8)) with (len0 - len s + 8) by lia.
  rewrite <- crc_bytes_load_app, <- Hc, <- Hb by lia.
  reflexivity.
Qed.

(** The inner loop leaves each lane at the end of its block. *)
Lemma lanes_done (BLOCK : Z) (s : cursor) :
  8 <= BLOCK -> BLOCK mod 8 = 0 -> 0 <= crc s < 2 ^ 32 ->
  let l :=
    do_while (Z.to_nat BLOCK) (fun l => lbuf l <? buf s + BLOCK)
      (fun l =>
         {| lane0 := fold_word mem (lane0 l) (lbuf l);
            lane1 := fold_word mem (lane1 l) (lbuf l + BLOCK);
            lane2 := fold_word mem (lane2 l) (lbuf l + 2 * BLOCK);
            lbuf := lbuf l + 8 |})
      {| lane0 := crc s; lane1 := 0; lane2 := 0; lbuf := buf s |} in
  in_lockstep mem BLOCK s l /\ lbuf l = buf s + BLOCK.
Proof.
  intros HB Hmod Hr l. subst l. unfold do_while.
  match goal with
  | |- context [while_loop ?f ?c ?b ?s0] =>
      destruct (while_loop_inv (in_lockstep mem BLOCK s)
                  (fun l => Z.to_nat (buf s + BLOCK - lbuf l)) c b) with
        (fuel := f) (s := s0) as [Hinv Hexit]
  end.
  - intros l (Hk & Hk8 & H0 & H1 & H2) Hlt.
    apply Z.ltb_lt in Hlt.
    assert (Hk' : lbuf l - buf s + 8 <= BLOCK)
      by (Z.div_mod_to_equations; lia).
    split; [|cbn [lbuf]; lia].
    unfold in_lockstep. cbn [lane0 lane1 lane2 lbuf].
    replace (lbuf l + 8 - buf s) with (lbuf l - buf s + 8) by lia.
    split; [lia|]. split; [Z.div_mod_to_equations; lia|].
    rewrite !fold_word_ok
      by (first [rewrite H0|rewrite H1|rewrite H2];
          apply crc_bytes_range; lia).
    rewrite H0, H1, H2.
    replace (load mem (lbuf l) 8)
      with (load mem (buf s + (lbuf l - buf s)) 8) by (f_equal; lia).
    replace (load mem (lbuf l + BLOCK) 8)
      with (load mem (buf s + BLOCK + (lbuf l - buf s)) 8) by (f_equal; lia).
    replace (load mem (lbuf l + 2 * BLOCK) 8)
      with (load mem (buf s + 2 * BLOCK + (lbuf l - buf s)) 8)
      by (f_equal; lia).
    rewrite !crc_bytes_load_app by lia.
    split; [reflexivity|split; reflexivity].
  - unfold in_lockstep. cbn [lane0 lane1 lane2 lbuf].
    replace (buf s + 8 - buf s) with 8 by lia.
    split; [lia|]. split; [reflexivity|].
    rewrite !fold_word_ok by lia. repeat split; reflexivity.
  - cbn [lbuf]. lia.
  - split; [exact Hinv|].
    destruct Hinv as (Hk & _). cbv beta in Hexit.
    apply Z.ltb_ge in Hexit. lia.
Qed.

(** One pass of the three-lane body equals the byte-at-a-time register
    over the [3 * BLOCK] bytes, given what the shift table does. *)
Lemma eat_three_blocks_consumed (BLOCK : Z) (zeros : table) (s : cursor) :
  8 <= BLOCK -> BLOCK mod 8 = 0 ->
  (forall x, 0 <= x < 2 ^ 32 ->
             crc32c_shift zeros x = Nat.iter (Z.to_nat BLOCK) zero_byte x) ->
  inv s -> 3 * BLOCK <= len s ->
  inv (eat_three_blocks mem fold_word BLOCK zeros s)
  /\ (fuel_of (eat_three_blocks mem fold_word BLOCK zeros s) < fuel_of s)%nat.
Proof.
  intros HB Hmod Hshift Hs Hlen. pose proof (consumed_range s Hs) as Hr.
  destruct Hs as (Hl & Hb & Hc).
  split; [|unfold fuel_of, eat_three_blocks; cbn [len]; lia].
  unfold consumed, eat_three_blocks. cbv zeta.
  destruct (lanes_done BLOCK s HB Hmod Hr) as [(_ & _ & H0 & H1 & H2) Hend].
  cbv zeta in H0, H1, H2, Hend.
  cbn [crc buf len]. rewrite Hend in *.
  replace (buf s + BLOCK - buf s) with BLOCK in * by lia.
  split; [lia|]. split; [lia|].
  rewrite H0, H1, H2.
  assert (Hlen1 : forall p, length (load mem p BLOCK) = Z.to_nat BLOCK)
    by (intros p; apply load_length).
  assert (R0 : 0 <= crc_bytes (crc s) (load mem (buf s) BLOCK) < 2 ^ 32)
    by (apply crc_bytes_range, Hr).
  rewrite (to_u32_small _ R0), (Hshift _ R0).
  rewrite <- (Hlen1 (buf s + BLOCK)).
  rewrite <- (crc_bytes_shift _ _ (load_bytes mem (buf s + BLOCK) BLOCK)).
  rewrite crc_bytes_load_app by lia.
  assert (R1 : 0 <= crc_bytes (crc s) (load mem (buf s) (BLOCK + BLOCK))
               < 2 ^ 32) by (apply crc_bytes_range, Hr).
  rewrite (to_u32_small _ R1), (Hshift _ R1).
  rewrite <- (Hlen1 (buf s + 2 * BLOCK)).
  rewrite <- (crc_bytes_shift _ _ (load_bytes mem (buf s + 2 * BLOCK) BLOCK)).
  replace (buf s + 2 * BLOCK) with (buf s + (BLOCK + BLOCK)) by lia.
  rewrite crc_bytes_load_app by lia.
  rewrite Hc, Hb, crc_bytes_load_app by lia.
  f_equal. f_equal. lia.
Qed.

Lemma align_loop_consumed (s : cursor) :
  inv s -> inv (align_loop mem fold_byte s).
Proof.
  intros Hs. unfold align_loop.
  apply (while_loop_inv inv fuel_of); [|exact Hs|apply Nat.le_refl].
  intros s' Hs' Hcond. unfold unaligned in Hcond.
  apply andb_true_iff in Hcond. destruct Hcond as [_ Hpos].
  apply eat_byte_consumed; [exact Hs'|lia].
Qed.

Lemma block_loop_consumed (BLOCK : Z) (zeros : table) (s : cursor) :
  8 <= BLOCK -> BLOCK mod 8 = 0 ->
  (forall x, 0 <= x < 2 ^ 32 ->
             crc32c_shift zeros x = Nat.iter (Z.to_nat BLOCK) zero_byte x) ->
  inv s -> inv (block_loop mem fold_word BLOCK zeros s).
Proof.
  intros HB Hmod Hshift Hs. unfold block_loop.
  apply (while_loop_inv inv fuel_of); [|exact Hs|apply Nat.le_refl].
  intros s' Hs' Hcond.
  apply eat_three_blocks_consumed; try assumption. lia.
Qed.

Lemma word_loop_consumed (s : cursor) :
  inv s -> inv (word_loop mem fold_word s).
Proof.
  intros Hs. unfold word_loop.
  apply (while_loop_inv inv fuel_of); [|exact Hs|apply Nat.le_refl].
  intros s' Hs' Hcond. apply eat_word_consumed; [exact Hs'|lia].
Qed.

Lemma short_loop_consumed (s : cursor) :
  inv s -> inv (block_loop mem fold_word SHORT_BLOCK crc32c_short s).
Proof.
  intros Hs.
  apply block_loop_consumed;
    [unfold SHORT_BLOCK; lia|reflexivity|exact crc32c_shift_short|exact Hs].
Qed.

Lemma long_loop_consumed (s : cursor) :
  inv s -> inv (block_loop mem fold_word LONG_BLOCK crc32c_long s).
Proof.
  intros Hs.
  apply block_loop_consumed;
    [unfold LONG_BLOCK; lia|reflexivity|exact crc32c_shift_long|exact Hs].
Qed.

(** The last loop stops with nothing left, so the fuel of a loop is
    never exhausted before its condition fails. *)
Lemma byte_loop_done (s : cursor) :
  inv s ->
  inv (byte_loop mem fold_byte s) /\ len (byte_loop mem fold_byte s) = 0.
Proof.
  intros Hs. unfold byte_loop.
  destruct (while_loop_inv inv fuel_of (fun s => len s >? 0)
              (eat_byte mem fold_byte)) with (fuel := fuel_of s) (s := s)
    as [Hinv Hexit].
  - intros s' Hs' Hcond. apply eat_byte_consumed; [exact Hs'|lia].
  - exact Hs.
  - apply Nat.le_refl.
  - split; [exact Hinv|]. destruct Hinv as (Hl & _). cbv beta in Hexit. lia.
Qed.

Lemma finish_consumed (s : cursor) :
  inv s -> len s = 0 ->
  finish s = to_u32 (crc_bytes c0 (load mem buf0 len0) .^ u32_max).
Proof.
  intros (_ & _ & Hc) H0. unfold finish. rewrite Hc, H0, Z.sub_0_r.
  reflexivity.
Qed.
End EngineCorrect.

Section EngineResults.
Variable mem : memory.
Variable fold_byte : Z -> Z -> Z.
Variable fold_word : memory -> Z -> Z -> Z.

Hypothesis fold_byte_ok :
  forall c b, 0 <= c < 2 ^ 32 -> is_byte b -> fold_byte c b = sw_byte c b.
Hypothesis fold_word_ok :
  forall c p, 0 <= c < 2 ^ 32 ->
              fold_word mem c p = crc_bytes c (load mem p 8).

Lemma start_consumed (p n crc_in : Z) :
  0 <= n -> consumed mem p n (u32_not crc_in) (start p n crc_in).
Proof.
  intros Hn. unfold consumed, start. cbn [crc buf len].
  rewrite Z.sub_diag. split; [lia|]. split; [lia|reflexivity].
Qed.

Ltac side := try assumption; try apply to_u32_range.

(** Whatever precedes it, the tail [byte_loop; finish] of an engine
    returns the reference checksum of the whole buffer. *)
Lemma finished (p n crc_in : Z) (s : cursor) :
  consumed mem p n (u32_not crc_in) s ->
  finish (byte_loop mem fold_byte s) = crc32c_bytes (load mem p n) crc_in.
Proof.
  intros Hs.
  destruct (byte_loop_done mem fold_byte fold_byte_ok
              p n (u32_not crc_in) (to_u32_range _) s Hs) as [Hinv H0].
  apply (finish_consumed mem _ _ _ _ Hinv H0).
Qed.

Lemma one_way_bytes (buf len crc_in : Z) :
  0 <= len ->
  one_way mem fold_byte fold_word buf len crc_in
  = crc32c_bytes (load mem buf len) crc_in.
Proof.
  intros Hlen. unfold one_way, crc32c_bytes. cbv zeta.
  apply finished. apply word_loop_consumed; side.
  apply align_loop_consumed; side.
  apply start_consumed, Hlen.
Qed.

Lemma short_block_bytes (buf len crc_in : Z) :
  0 <= len ->
  short_block mem fold_byte fold_word buf len crc_in
  = crc32c_bytes (load mem buf len) crc_in.
Proof.
  intros Hlen. unfold short_block.
  destruct (len <? 3 * SHORT_BLOCK); [apply one_way_bytes, Hlen|].
  unfold crc32c_bytes. cbv zeta.
  apply finished. apply word_loop_consumed; side.
  apply short_loop_consumed; side.
  apply align_loop_consumed; side.
  apply start_consumed, Hlen.
Qed.

Lemma three_block_bytes (buf len crc_in : Z) :
  0 <= len ->
  three_block mem fold_byte fold_word buf len crc_in
  = crc32c_bytes (load mem buf len) crc_in.
Proof.
  intros Hlen. unfold three_block.
  destruct (len <? 3 * LONG_BLOCK); [apply short_block_bytes, Hlen|].
  unfold crc32c_bytes. cbv zeta.
  apply finished. apply word_loop_consumed; side.
  apply short_loop_consumed; side.
  apply long_loop_consumed; side.
  apply align_loop_consumed; side.
  apply start_consumed, Hlen.
Qed.
End EngineResults.

(** ** The six engine functions and the dispatcher *)

Lemma crc32c_sw_1way_bytes (mem : memory) (buf len crc_in : Z) :
  0 <= len -> crc32c_sw_1way mem buf len crc_in = crc32c_bytes (load mem buf len) crc_in.
Proof.
  intros Hlen. unfold crc32c_sw_1way.
  apply one_way_bytes; [intros c b _ _; reflexivity| |exact Hlen].
  intros c p Hc. apply crc32c_sw_inner_bytes, Hc.
Qed.

Lemma crc32c_sw_short_block_bytes (mem : memory) (buf len crc_in : Z) :
  0 <= len ->
  crc32c_sw_short_block mem buf len crc_in = crc32c_bytes (load mem buf len) crc_in.
Proof.
  intros Hlen. unfold crc32c_sw_short_block.
  apply short_block_bytes; [intros c b _ _; reflexivity| |exact Hlen].
  intros c p Hc. apply crc32c_sw_inner_bytes, Hc.
Qed.

Lemma crc32c_sw_bytes (mem : memory) (buf len crc_in : Z) :
  0 <= len -> crc32c_sw mem buf len crc_in = crc32c_bytes (load mem buf len) crc_in.
Proof.
  intros Hlen. unfold crc32c_sw.
  apply three_block_bytes; [intros c b _ _; reflexivity| |exact Hlen].
  intros c p Hc. apply crc32c_sw_inner_bytes, Hc.
Qed.

Lemma crc32c_hw_1way_bytes (mem : memory) (buf len crc_in : Z) :
  0 <= len -> crc32c_hw_1way mem buf len crc_in = crc32c_bytes (load mem buf len) crc_in.
Proof.
  intros Hlen. unfold crc32c_hw_1way.
  apply one_way_bytes; [exact hw_byte_sw_byte| |exact Hlen].
  intros c p Hc. apply hw_word_bytes, Hc.
Qed.

Lemma crc32c_hw_short_block_bytes (mem : memory) (buf len crc_in : Z) :
  0 <= len ->
  crc32c_hw_short_block mem buf len crc_in = crc32c_bytes (load mem buf len) crc_in.
Proof.
  intros Hlen. unfold crc32c_hw_short_block.
  apply short_block_bytes; [exact hw_byte_sw_byte| |exact Hlen].
  intros c p Hc. apply hw_word_bytes, Hc.
Qed.

Lemma crc32c_hw_bytes (mem : memory) (buf len crc_in : Z) :
  0 <= len -> crc32c_hw mem buf len crc_in = crc32c_bytes (load mem buf len) crc_in.
Proof.
  intros Hlen. unfold crc32c_hw.
  apply three_block_bytes; [exact hw_byte_sw_byte| |exact Hlen].
  intros c p Hc. apply hw_word_bytes, Hc.
Qed.

(** Whichever engine the capability probe selects. *)
Lemma crc32c_bytes_eq (registers : list Z) (mem : memory) (buf len crc_in : Z) :
  0 <= len ->
  crc32c registers mem buf len crc_in = crc32c_bytes (load mem buf len) crc_in.
Proof.
  intros Hlen. unfold crc32c, setup_crc32c. cbv zeta.
  destruct (negb (get registers 2 .& 1048576 =? 0));
    [apply crc32c_hw_bytes|apply crc32c_sw_bytes]; exact Hlen.
Qed.

(** ** Complements *)

Lemma u32_not_lxor (x : Z) : 0 <= x < 2 ^ 32 -> u32_not x = x .^ u32_max.
Proof.
  intros Hx. unfold u32_not, to_u32, u32_max.
  change 0xFFFFFFFF with (Z.ones 32).
  apply Z.bits_inj'; intros i Hi.
  rewrite Z.land_spec, Z.lxor_spec, Z.lnot_spec, Z.testbit_ones_nonneg by lia.
  destruct (Z.ltb_spec i 32); [btauto|].
  rewrite <- (Z.mod_small x (2 ^ 32)) by exact Hx.
  rewrite Z.mod_pow2_bits_high by lia. reflexivity.
Qed.

Lemma u32_max_range : 0 <= u32_max < 2 ^ 32.
Proof. unfold u32_max. lia. Qed.

(** Complement out then complement in gives the register back. *)
Lemma u32_not_finish (c : Z) :
  0 <= c < 2 ^ 32 -> u32_not (to_u32 (c .^ u32_max)) = c.
Proof.
  intros Hc.
  pose proof (lxor_range 32 c u32_max ltac:(lia) Hc u32_max_range) as Hr.
  rewrite to_u32_small, u32_not_lxor by exact Hr.
  rewrite Z.lxor_assoc, Z.lxor_nilpotent. apply Z.lxor_0_r.
Qed.

Lemma finish_u32_not (x : Z) :
  0 <= x < 2 ^ 32 -> to_u32 (u32_not x .^ u32_max) = x.
Proof.
  intros Hx. rewrite u32_not_lxor by exact Hx.
  rewrite Z.lxor_assoc, Z.lxor_nilpotent, Z.lxor_0_r.
  apply to_u32_small, Hx.
Qed.

Lemma crc32c_bytes_app (bs1 bs2 : list Z) (seed : Z) :
  crc32c_bytes bs2 (crc32c_bytes bs1 seed) = crc32c_bytes (bs1 ++ bs2) seed.
Proof.
  unfold crc32c_bytes. rewrite crc_bytes_app.
  rewrite u32_not_finish by (apply crc_bytes_range, to_u32_range).
  reflexivity.
Qed.

(** * The specification's properties *)

(** C1: with seed 0 the public [crc32c], whichever engine was bound and
    wherever the buffer lies, returns [0x8A9136AA] for 32 bytes of [0x00],
    [0x62A8AB43] for 32 bytes of [0xFF], [0x46DD794E] for the bytes
    [0x00 .. 0x1F] and [0x113FDB5C] for the bytes [0x1F .. 0x00]
    (the pairs of [known_vectors]). *)
Theorem crc32c_known_vectors (registers : list Z) (mem : memory) (buf : Z)
        (bytes : list Z) (expected : Z) :
  In (bytes, expected) known_vectors ->
  load mem buf 32 = bytes ->
  crc32c registers mem buf 32 0 = expected.
Proof.
  intros Hin Hload. rewrite crc32c_bytes_eq by lia. rewrite Hload.
  unfold known_vectors in Hin.
  destruct Hin as [[= <- <-]|[[= <- <-]|[[= <- <-]|[[= <- <-]|[]]]]];
    vm_compute; reflexivity.
Qed.

Lemma crc32c_known_vectors_witness :
  In (repeat 0x00 32, 0x8A9136AA) known_vectors
  /\ load zero_memory 5 32 = repeat 0x00 32
  /\ crc32c [0; 0; 0x00100000; 0] zero_memory 5 32 0 = 0x8A9136AA.
Proof.
  assert (Hin : In (repeat 0x00 32, 0x8A9136AA) known_vectors)
    by (left; reflexivity).
  assert (Hload : load zero_memory 5 32 = repeat 0x00 32) by reflexivity.
  split; [exact Hin|]. split; [exact Hload|].
  exact (crc32c_known_vectors [0; 0; 0x00100000; 0] zero_memory 5
           (repeat 0x00 32) 0x8A9136AA Hin Hload).
Defined.

(** C2: for every seed and every buffer, a call with length 0 returns the
    seed unchanged: through the public [crc32c] and through both one-lane
    functions. *)
Theorem crc32c_length_zero (registers : list Z) (mem : memory) (buf seed : Z) :
  0 <= seed < 2 ^ 32 ->
  crc32c registers mem buf 0 seed = seed
  /\ crc32c_sw_1way mem buf 0 seed = seed
  /\ crc32c_hw_1way mem buf 0 seed = seed.
Proof.
  intros Hseed.
  rewrite crc32c_bytes_eq, crc32c_sw_1way_bytes, crc32c_hw_1way_bytes by lia.
  change (load mem buf 0) with (@nil Z). unfold crc32c_bytes.
  cbn [crc_bytes fold_left].
  rewrite finish_u32_not by exact Hseed. repeat split.
Qed.

Lemma crc32c_length_zero_witness :
  crc32c [] sample_memory 3 0 0xFFFFFFFF = 0xFFFFFFFF
  /\ crc32c_sw_1way sample_memory 3 0 0xFFFFFFFF = 0xFFFFFFFF
  /\ crc32c_hw_1way sample_memory 3 0 0xFFFFFFFF = 0xFFFFFFFF.
Proof.
  apply (crc32c_length_zero [] sample_memory 3 0xFFFFFFFF). lia.
Defined.

(** C3: checksumming [buf1] and then [buf2] from the first result equals
    checksumming their concatenation, for every seed, every pair of
    lengths (hence every strategy regime and boundary length) and every
    placement of the three buffers. *)
Theorem crc32c_streaming (registers : list Z)
        (mem1 mem2 mem : memory) (buf1 buf2 buf len1 len2 seed : Z) :
  0 <= len1 -> 0 <= len2 ->
  load mem buf (len1 + len2) = load mem1 buf1 len1 ++ load mem2 buf2 len2 ->
  crc32c registers mem2 buf2 len2 (crc32c registers mem1 buf1 len1 seed)
  = crc32c registers mem buf (len1 + len2) seed.
Proof.
  intros H1 H2 Hcat. rewrite !crc32c_bytes_eq by lia.
  rewrite Hcat. apply crc32c_bytes_app.
Qed.

Lemma crc32c_streaming_witness :
  crc32c [] sample_memory 770 9 (crc32c [] sample_memory 1 769 7)
  = crc32c [] sample_memory 1 (769 + 9) 7.
Proof.
  apply (crc32c_streaming [] sample_memory sample_memory sample_memory
           1 770 1 769 9 7); [lia|lia|].
  change 770 with (1 + 769). apply load_app; lia.
Defined.

(** C4: for every buffer, length, seed and buffer address (so every
    alignment), the software engine and the hardware engine return the
    same value. *)
Theorem crc32c_sw_hw_agree (mem : memory) (buf len seed : Z) :
  0 <= len -> crc32c_sw mem buf len seed = crc32c_hw mem buf len seed.
Proof.
  intros Hlen. rewrite crc32c_sw_bytes, crc32c_hw_bytes by exact Hlen.
  reflexivity.
Qed.

Lemma crc32c_sw_hw_agree_witness :
  crc32c_sw sample_memory 3 30000 5 = crc32c_hw sample_memory 3 30000 5.
Proof. apply (crc32c_sw_hw_agree sample_memory 3 30000 5). lia. Defined.

(** C5: for every buffer, length and seed, the three-lane functions
    [crc32c_sw] (long, then short blocks) and [crc32c_sw_short_block]
    return what the one-lane [crc32c_sw_1way] returns. *)
Theorem crc32c_sw_three_lanes (mem : memory) (buf len seed : Z) :
  0 <= len ->
  crc32c_sw mem buf len seed = crc32c_sw_1way mem buf len seed
  /\ crc32c_sw_short_block mem buf len seed = crc32c_sw_1way mem buf len seed.
Proof.
  intros Hlen.
  rewrite crc32c_sw_bytes, crc32c_sw_short_block_bytes, crc32c_sw_1way_bytes
    by exact Hlen.
  split; reflexivity.
Qed.

Lemma crc32c_sw_three_lanes_witness :
  crc32c_sw sample_memory 3 30000 5 = crc32c_sw_1way sample_memory 3 30000 5
  /\ crc32c_sw_short_block sample_memory 3 30000 5
     = crc32c_sw_1way sample_memory 3 30000 5.
Proof. apply (crc32c_sw_three_lanes sample_memory 3 30000 5). lia. Defined.

(** C6, as the source has it: for every length of at least 1,
    [crc32c_zeros_op] returns the operator of appending
    [2 ^ log2 length] zero bytes, the largest power of two not above
    [length]; for a power of two, and so for [LONG_BLOCK] and
    [SHORT_BLOCK], that is the operator of appending [length] zero
    bytes. *)
Theorem crc32c_zeros_op_power_of_two (even : list Z) (len : Z) :
  length even = 32%nat -> 1 <= len ->
  represents (crc32c_zeros_op even len)
    (Nat.iter (Z.to_nat (2 ^ Z.log2 len)) zero_byte)
  /\ (forall k, 0 <= k -> len = 2 ^ k ->
        represents (crc32c_zeros_op even len)
          (Nat.iter (Z.to_nat len) zero_byte))
  /\ represents (crc32c_zeros_op even LONG_BLOCK)
       (Nat.iter (Z.to_nat LONG_BLOCK) zero_byte)
  /\ represents (crc32c_zeros_op even SHORT_BLOCK)
       (Nat.iter (Z.to_nat SHORT_BLOCK) zero_byte).
Proof.
  intros He Hlen. split; [apply crc32c_zeros_op_represents; assumption|].
  split; [|split].
  - intros k Hk Hpow.
    pose proof (crc32c_zeros_op_represents even len He Hlen) as H.
    rewrite Hpow, Z.log2_pow2 in H by exact Hk. rewrite Hpow. exact H.
  - apply (crc32c_zeros_op_represents even LONG_BLOCK He).
    unfold LONG_BLOCK. lia.
  - apply (crc32c_zeros_op_represents even SHORT_BLOCK He).
    unfold SHORT_BLOCK. lia.
Qed.

Lemma crc32c_zeros_op_power_of_two_witness :
  represents (crc32c_zeros_op (repeat 0 32) 4)
    (Nat.iter (Z.to_nat (2 ^ Z.log2 4)) zero_byte).
Proof.
  apply (crc32c_zeros_op_power_of_two (repeat 0 32) 4); [reflexivity|lia].
Defined.

(** C6, as the specification has it, fails at length 3: the operator
    built for 3 is not the operator of appending 3 zero bytes (it is the
    one of appending 2). *)
Lemma crc32c_zeros_op_three :
  ~ represents (crc32c_zeros_op (repeat 0 32) 3) (Nat.iter (Z.to_nat 3) zero_byte).
Proof.
  intros (_ & _ & H). specialize (H 1 ltac:(lia)).
  vm_compute in H. discriminate H.
Qed.

(** C7: for length 0 [crc32c_zeros_op] builds exactly the matrix it
    builds for length 1. *)
Theorem crc32c_zeros_op_zero (even : list Z) :
  crc32c_zeros_op even 0 = crc32c_zeros_op even 1.
Proof.
  unfold crc32c_zeros_op. rewrite one_zero_bit_rows. cbv beta iota zeta.
  rewrite !zeros_op_loop_eq. reflexivity.
Qed.

(** C8: for every 32-row operator [op] and every 32-bit [crc], the table
    filled by [crc32c_zeros] holds [gf2_matrix_times op (v << 8p)] at
    [p][v], and the four lookups of [crc32c_shift] equal the direct
    product [gf2_matrix_times op crc]. *)
Theorem crc32c_shift_is_product (op : list Z) (zeros : table) (crc : Z) :
  length op = 32%nat -> shaped 4 256 zeros -> 0 <= crc < 2 ^ 32 ->
  (forall (p : nat) (v : Z),
      (p < 4)%nat -> is_byte v ->
      get2 (crc32c_zeros_fill op zeros) p v
      = gf2_matrix_times op (v << (8 * Z.of_nat p)))
  /\ crc32c_shift (crc32c_zeros_fill op zeros) crc = gf2_matrix_times op crc.
Proof.
  intros _ Hz Hc. split.
  - apply crc32c_zeros_fill_spec, Hz.
  - apply crc32c_shift_fill; assumption.
Qed.

Lemma crc32c_shift_is_product_witness :
  crc32c_shift
    (crc32c_zeros_fill (crc32c_zeros_op (repeat 0 32) 256) (zero_table 4 256))
    0xDEADBEEF
  = gf2_matrix_times (crc32c_zeros_op (repeat 0 32) 256) 0xDEADBEEF.
Proof.
  apply (crc32c_shift_is_product (crc32c_zeros_op (repeat 0 32) 256)
           (zero_table 4 256) 0xDEADBEEF);
    [vm_compute; reflexivity|apply shaped_zero_table|lia].
Defined.

(** C9: two runs over the same bytes at addresses of different (or
    equal) residues modulo 8 return the same value. *)
Theorem crc32c_alignment (registers : list Z) (mem1 mem2 : memory)
        (buf1 buf2 len seed : Z) :
  0 <= len ->
  load mem1 buf1 len = load mem2 buf2 len ->
  crc32c registers mem1 buf1 len seed = crc32c registers mem2 buf2 len seed.
Proof.
  intros Hlen Hsame. rewrite !crc32c_bytes_eq by exact Hlen.
  rewrite Hsame. reflexivity.
Qed.

Lemma crc32c_alignment_witness :
  crc32c [] sample_memory 3 40 9 = crc32c [] sample_memory 254 40 9.
Proof.
  apply (crc32c_alignment [] sample_memory sample_memory 3 254 40 9);
    [lia|vm_compute; reflexivity].
Defined.

(** C10: on an accumulator whose upper 32 bits are zero, the word fold
    [crc32c_sw_inner] returns what the single-byte table step returns over
    the 8 bytes in memory order, and its upper 32 bits are zero again. *)
Theorem crc32c_sw_inner_eight_bytes (mem : memory) (c buffer : Z) :
  0 <= c < 2 ^ 32 ->
  crc32c_sw_inner mem c buffer
  = fold_left sw_byte
      [load8 mem buffer; load8 mem (buffer + 1); load8 mem (buffer + 2);
       load8 mem (buffer + 3); load8 mem (buffer + 4); load8 mem (buffer + 5);
       load8 mem (buffer + 6); load8 mem (buffer + 7)] c
  /\ 0 <= crc32c_sw_inner mem c buffer < 2 ^ 32.
Proof.
  intros Hc. rewrite crc32c_sw_inner_bytes by exact Hc.
  split; [|apply crc_bytes_range, Hc].
  unfold crc_bytes.
  change (load mem buffer 8)
    with [load8 mem (buffer + 0); load8 mem (buffer + 1);
          load8 mem (buffer + 2); load8 mem (buffer + 3);
          load8 mem (buffer + 4); load8 mem (buffer + 5);
          load8 mem (buffer + 6); load8 mem (buffer + 7)].
  rewrite Z.add_0_r. reflexivity.
Qed.

Lemma crc32c_sw_inner_eight_bytes_witness :
  0 <= crc32c_sw_inner sample_memory 0xFFFFFFFF 3 < 2 ^ 32.
Proof.
  apply (crc32c_sw_inner_eight_bytes sample_memory 0xFFFFFFFF 3). lia.
Defined.


(** * Further properties of the code *)

(** ** [gf2_matrix_times] and [gf2_matrix_square] *)

Lemma gf2_sum_unit (mat : list Z) (i : nat) :
  (i < length mat)%nat -> gf2_sum mat (2 ^ Z.of_nat i) = nth i mat 0.
Proof.
  revert i. induction mat as [|row mat IH]; intros i Hi; [simpl in Hi; lia|].
  destruct i as [|i].
  - cbn [gf2_sum nth]. change (2 ^ Z.of_nat 0) with 1.
    change (Z.odd 1) with true. change (1 >> 1) with 0.
    rewrite gf2_sum_0. apply Z.lxor_0_r.
  - cbn [gf2_sum nth].
    replace (Z.of_nat (S i)) with (Z.of_nat i + 1) by lia.
    rewrite <- Z.shiftl_1_l, <- Z.bit0_odd.
    rewrite Z.shiftl_spec, Z.testbit_neg_r by lia.
    rewrite Z.shiftr_shiftl_l by lia.
    replace (Z.of_nat i + 1 - 1) with (Z.of_nat i) by lia.
    rewrite Z.shiftl_1_l, Z.lxor_0_l. apply IH. simpl in Hi. lia.
Qed.

(** X1: [gf2_matrix_times] is linear in the vector: the product with
    [a ^ b] is the XOR of the products with [a] and with [b]. *)
Theorem gf2_matrix_times_linear (mat : list Z) (a b : Z) :
  0 <= a -> 0 <= b ->
  gf2_matrix_times mat (a .^ b)
  = gf2_matrix_times mat a .^ gf2_matrix_times mat b.
Proof. apply gf2_matrix_times_lxor. Qed.

Lemma gf2_matrix_times_linear_witness :
  gf2_matrix_times [3; 5; 6] (1 .^ 6)
  = gf2_matrix_times [3; 5; 6] 1 .^ gf2_matrix_times [3; 5; 6] 6.
Proof. apply (gf2_matrix_times_linear [3; 5; 6] 1 6); lia. Defined.

(** X2: the product with the vector that has only bit [i] set is row [i]
    of the matrix. *)
Theorem gf2_matrix_times_unit (mat : list Z) (i : nat) :
  (i < length mat)%nat -> gf2_matrix_times mat (2 ^ Z.of_nat i) = nth i mat 0.
Proof.
  intros Hi. rewrite gf2_matrix_times_sum by (apply Z.pow_nonneg; lia).
  apply gf2_sum_unit, Hi.
Qed.

Lemma gf2_matrix_times_unit_witness :
  gf2_matrix_times [3; 5; 6] (2 ^ Z.of_nat 2) = nth 2 [3; 5; 6] 0.
Proof. apply (gf2_matrix_times_unit [3; 5; 6] 2). simpl. lia. Defined.

Lemma represents_self (mat : list Z) :
  length mat = 32%nat -> (forall row, In row mat -> 0 <= row < 2 ^ 32) ->
  represents mat (gf2_matrix_times mat).
Proof. intros Hl Hr. split; [exact Hl|]. split; [exact Hr|reflexivity]. Qed.

(** X3: on a 32-row matrix with 32-bit rows, [gf2_matrix_square] builds
    the matrix of applying [mat] twice. *)
Theorem gf2_matrix_square_twice (square mat : list Z) (v : Z) :
  length square = 32%nat -> length mat = 32%nat ->
  (forall row, In row mat -> 0 <= row < 2 ^ 32) ->
  0 <= v < 2 ^ 32 ->
  gf2_matrix_times (gf2_matrix_square square mat) v
  = gf2_matrix_times mat (gf2_matrix_times mat v).
Proof.
  intros Hs Hl Hr Hv.
  destruct (gf2_matrix_square_represents square mat _ Hs
              (represents_self mat Hl Hr)) as (_ & _ & H).
  apply H, Hv.
Qed.

Lemma sample_rows_range :
  forall row, In row (map Z.of_nat (seq 1 32)) -> 0 <= row < 2 ^ 32.
Proof.
  intros row Hin. apply in_map_iff in Hin. destruct Hin as [n [<- Hn]].
  apply in_seq in Hn. lia.
Defined.

Lemma gf2_matrix_square_twice_witness :
  gf2_matrix_times
    (gf2_matrix_square (repeat 0 32) (map Z.of_nat (seq 1 32))) 0xDEADBEEF
  = gf2_matrix_times (map Z.of_nat (seq 1 32))
      (gf2_matrix_times (map Z.of_nat (seq 1 32)) 0xDEADBEEF).
Proof.
  apply (gf2_matrix_square_twice (repeat 0 32) (map Z.of_nat (seq 1 32))
           0xDEADBEEF);
    [reflexivity|reflexivity|exact sample_rows_range|lia].
Defined.

(** ** [crc32c_zeros_op] and [crc32c_zeros] *)

Lemma zeros_op_loop_top_bit (fuel : nat) :
  forall (even odd : list Z) (len : Z),
    1 <= len ->
    zeros_op_loop fuel even odd len
    = zeros_op_loop fuel even odd (2 ^ Z.log2 len).
Proof.
  induction fuel as [|fuel IH]; intros even odd len Hlen;
    rewrite (zeros_op_loop_eq _ even odd len),
            (zeros_op_loop_eq _ even odd (2 ^ Z.log2 len));
    rewrite !shiftr_1_div;
    pose proof (Z.log2_nonneg len) as HL;
    destruct (Z.log2_spec len ltac:(lia)) as [Hlo Hhi];
    replace (Z.succ (Z.log2 len)) with (Z.log2 len + 1) in Hhi by lia;
    rewrite Z.pow_add_r in Hhi by lia; change (2 ^ 1) with 2 in Hhi;
    (destruct (Z.eq_dec (Z.log2 len) 0) as [E0|N0];
     [rewrite E0 in *; change (2 ^ 0) with 1 in *;
      assert (len = 1) as -> by lia; reflexivity|]);
    (destruct (Z.eq_dec (Z.log2 len) 1) as [E1|N1];
     [rewrite E1 in *; change (2 ^ 1) with 2 in *;
      assert (Hq : len / 2 = 1) by (Z.div_mod_to_equations; lia);
      rewrite Hq; reflexivity|]);
    assert (Hpow : 2 ^ Z.log2 len = 4 * 2 ^ (Z.log2 len - 2))
      by (replace (Z.log2 len) with (2 + (Z.log2 len - 2)) at 1 by lia;
          rewrite Z.pow_add_r by lia; reflexivity);
    assert (0 < 2 ^ (Z.log2 len - 2)) by (apply Z.pow_pos_nonneg; lia);
    assert (Hq2 : 2 ^ Z.log2 len / 2 / 2 = 2 ^ (Z.log2 len - 2))
      by (rewrite Hpow; Z.div_mod_to_equations; lia);
    assert (Hlog : Z.log2 (len / 2 / 2) = Z.log2 len - 2)
      by (rewrite <- !shiftr_1_div, Z.shiftr_shiftr, Z.log2_shiftr by lia; lia);
    assert (Hn2 : len / 2 <> 0) by (Z.div_mod_to_equations; lia);
    assert (Hn2' : 2 ^ Z.log2 len / 2 <> 0)
      by (rewrite Hpow; Z.div_mod_to_equations; lia);
    assert (Hp4 : 0 < len / 2 / 2) by (Z.div_mod_to_equations; lia);
    destruct (Z.eqb_spec (len / 2) 0) as [|_]; try contradiction;
    destruct (Z.eqb_spec (2 ^ Z.log2 len / 2) 0) as [|_]; try contradiction;
    rewrite Hq2;
    destruct (Z.gtb_spec (len / 2 / 2) 0) as [_|]; try lia;
    destruct (Z.gtb_spec (2 ^ (Z.log2 len - 2)) 0) as [_|]; try lia.
  - reflexivity.
  - rewrite IH by lia. rewrite Hlog. reflexivity.
Qed.

(** X4: [crc32c_zeros_op] looks at the highest set bit of [len] only: the
    matrix for [len] is the matrix for the largest power of two not above
    [len]. *)
Theorem crc32c_zeros_op_top_bit (even : list Z) (len : Z) :
  1 <= len ->
  crc32c_zeros_op even len = crc32c_zeros_op even (2 ^ Z.log2 len).
Proof.
  intros Hlen. unfold crc32c_zeros_op.
  rewrite Z.log2_pow2 by apply Z.log2_nonneg.
  rewrite one_zero_bit_rows. cbv beta iota zeta.
  rewrite <- zeros_op_loop_top_bit by exact Hlen. reflexivity.
Qed.

Lemma crc32c_zeros_op_top_bit_witness :
  crc32c_zeros_op (repeat 0 32) 300
  = crc32c_zeros_op (repeat 0 32) (2 ^ Z.log2 300).
Proof. apply (crc32c_zeros_op_top_bit (repeat 0 32) 300). lia. Defined.

Lemma shaped_ext (rows cols : nat) (t1 t2 : table) :
  shaped rows cols t1 -> shaped rows cols t2 ->
  (forall x j, (x < rows)%nat -> (j < cols)%nat ->
               nth j (nth x t1 []) 0 = nth j (nth x t2 []) 0) ->
  t1 = t2.
Proof.
  intros [L1 R1] [L2 R2] H. apply (nth_ext _ _ [] []); [lia|].
  intros x Hx. rewrite L1 in Hx. apply (nth_ext _ _ 0 0).
  - rewrite R1, R2 by exact Hx. reflexivity.
  - intros j Hj. rewrite R1 in Hj by exact Hx. apply H; assumption.
Qed.

Lemma crc32c_zeros_op_overwrites (a1 a2 : list Z) (len : Z) :
  length a1 = 32%nat -> length a2 = 32%nat ->
  crc32c_zeros_op a1 len = crc32c_zeros_op a2 len.
Proof.
  intros H1 H2.
  unfold crc32c_zeros_op. rewrite one_zero_bit_rows. cbv beta iota zeta.
  set (odd0 := CRC32C_POLYNOMIAL_REV :: map (fun i => 2 ^ Z.of_nat i) (seq 0 31)).
  assert (Ho : length odd0 = 32%nat) by reflexivity.
  clearbody odd0.
  rewrite (gf2_matrix_square_map a1 odd0 H1 Ho).
  rewrite (gf2_matrix_square_map a2 odd0 H2 Ho).
  reflexivity.
Qed.

Lemma get2_of_nat (t : table) (x j : nat) :
  get2 t x (Z.of_nat j) = nth j (nth x t []) 0.
Proof. unfold get2, get. rewrite Nat2Z.id. reflexivity. Qed.

Lemma crc32c_zeros_fill_overwrites (op : list Z) (z1 z2 : table) :
  shaped 4 256 z1 -> shaped 4 256 z2 ->
  crc32c_zeros_fill op z1 = crc32c_zeros_fill op z2.
Proof.
  intros Hz1 Hz2.
  destruct (crc32c_zeros_fill_spec op z1 Hz1) as [S1 G1].
  destruct (crc32c_zeros_fill_spec op z2 Hz2) as [S2 G2].
  apply (shaped_ext _ _ _ _ S1 S2).
  intros x j Hx Hj.
  assert (Hb : is_byte (Z.of_nat j)).
  { unfold is_byte. split; [apply Nat2Z.is_nonneg|].
    apply (Nat2Z.inj_lt j 256), Hj. }
  rewrite <- !get2_of_nat. rewrite G1, G2 by assumption. reflexivity.
Qed.

(** X5: the output arrays are written in full: what [gf2_matrix_square],
    [crc32c_zeros_op] and [crc32c_zeros] return does not depend on what
    the output array held before the call. *)
Theorem outputs_overwritten (a1 a2 mat : list Z) (z1 z2 : table) (len : Z) :
  length a1 = 32%nat -> length a2 = 32%nat -> length mat = 32%nat ->
  shaped 4 256 z1 -> shaped 4 256 z2 ->
  gf2_matrix_square a1 mat = gf2_matrix_square a2 mat
  /\ crc32c_zeros_op a1 len = crc32c_zeros_op a2 len
  /\ crc32c_zeros z1 len = crc32c_zeros z2 len.
Proof.
  intros H1 H2 Hm Hz1 Hz2. split; [|split].
  - rewrite !gf2_matrix_square_map by assumption. reflexivity.
  - apply crc32c_zeros_op_overwrites; assumption.
  - unfold crc32c_zeros. cbv zeta.
    apply crc32c_zeros_fill_overwrites; assumption.
Qed.

Lemma outputs_overwritten_witness :
  crc32c_zeros (zero_table 4 256) 256 = crc32c_zeros (repeat (repeat 7 256) 4) 256.
Proof.
  apply (outputs_overwritten (repeat 0 32) (repeat 1 32) (repeat 2 32)
           (zero_table 4 256) (repeat (repeat 7 256) 4) 256);
    try reflexivity; try apply shaped_zero_table.
  split; [reflexivity|].
  intros x Hx. do 4 (destruct x as [|x]; [reflexivity|]). lia.
Defined.

(** ** The shift tables *)

Lemma crc_bytes_zeros (n : nat) (x : Z) :
  crc_bytes x (repeat 0 n) = Nat.iter n zero_byte x.
Proof.
  revert x. induction n as [|n IH]; intros x; [reflexivity|].
  rewrite Nat.iter_succ_r. cbn [repeat crc_bytes fold_left].
  apply IH.
Qed.

(** X6: the two static shift tables move a register past [SHORT_BLOCK]
    and [LONG_BLOCK] zero bytes: [crc32c_shift] on them returns what the
    single-byte table step returns after 256, respectively 8192, bytes
    [0]. *)
Theorem crc32c_shift_static_tables (crc : Z) :
  0 <= crc < 2 ^ 32 ->
  crc32c_shift crc32c_short crc
  = crc_bytes crc (repeat 0 (Z.to_nat SHORT_BLOCK))
  /\ crc32c_shift crc32c_long crc
     = crc_bytes crc (repeat 0 (Z.to_nat LONG_BLOCK)).
Proof.
  intros Hc. rewrite crc32c_shift_short, crc32c_shift_long by exact Hc.
  rewrite !crc_bytes_zeros. split; reflexivity.
Qed.

Lemma crc32c_shift_static_tables_witness :
  crc32c_shift crc32c_short 0xFFFFFFFF
  = crc_bytes 0xFFFFFFFF (repeat 0 (Z.to_nat SHORT_BLOCK)).
Proof.
  exact (proj1 (crc32c_shift_static_tables 0xFFFFFFFF ltac:(lia))).
Defined.

Lemma iter_ext_inv {A : Type} (P : A -> Prop) (f g : A -> A) :
  (forall y, P y -> P (f y)) -> (forall y, P y -> f y = g y) ->
  forall n x, P x -> Nat.iter n f x = Nat.iter n g x /\ P (Nat.iter n f x).
Proof.
  intros Hf Hfg n x Hx. induction n as [|n [IH IP]]; [split; [reflexivity|exact Hx]|].
  cbn [Nat.iter nat_rect]. split; [|apply Hf, IP].
  change (f (Nat.iter n f x) = g (Nat.iter n g x)).
  rewrite <- IH. apply Hfg, IP.
Qed.

(** X7: one application of the long shift table is 32 applications of the
    short one ([LONG_BLOCK = 32 * SHORT_BLOCK]). *)
Theorem crc32c_shift_long_is_32_short (crc : Z) :
  0 <= crc < 2 ^ 32 ->
  crc32c_shift crc32c_long crc
  = Nat.iter 32 (crc32c_shift crc32c_short) crc.
Proof.
  intros Hc. rewrite crc32c_shift_long by exact Hc.
  change (Z.to_nat LONG_BLOCK) with (32 * Z.to_nat SHORT_BLOCK)%nat.
  rewrite iter_mul.
  apply (iter_ext_inv (fun x => 0 <= x < 2 ^ 32)); [| |exact Hc].
  - intros y Hy. apply zero_bytes_range, Hy.
  - intros y Hy. symmetry. apply crc32c_shift_short, Hy.
Qed.

Lemma crc32c_shift_long_is_32_short_witness :
  crc32c_shift crc32c_long 0xDEADBEEF
  = Nat.iter 32 (crc32c_shift crc32c_short) 0xDEADBEEF.
Proof. apply (crc32c_shift_long_is_32_short 0xDEADBEEF). lia. Defined.

(** X8: [crc32c_shift] on a table filled by [crc32c_zeros] is linear: the
    shift of [a ^ b] is the XOR of the shifts of [a] and of [b]. *)
Theorem crc32c_shift_linear (op : list Z) (zeros : table) (a b : Z) :
  shaped 4 256 zeros -> 0 <= a < 2 ^ 32 -> 0 <= b < 2 ^ 32 ->
  crc32c_shift (crc32c_zeros_fill op zeros) (a .^ b)
  = crc32c_shift (crc32c_zeros_fill op zeros) a
    .^ crc32c_shift (crc32c_zeros_fill op zeros) b.
Proof.
  intros Hz Ha Hb.
  rewrite !crc32c_shift_fill
    by (first [exact Hz|exact Ha|exact Hb|apply lxor_range; [lia|exact Ha|exact Hb]]).
  apply gf2_matrix_times_lxor; lia.
Qed.

Lemma crc32c_shift_linear_witness :
  crc32c_shift (crc32c_zeros_fill (map Z.of_nat (seq 1 32)) (zero_table 4 256))
    (0xDEADBEEF .^ 0x12345678)
  = crc32c_shift (crc32c_zeros_fill (map Z.of_nat (seq 1 32)) (zero_table 4 256))
      0xDEADBEEF
    .^ crc32c_shift
         (crc32c_zeros_fill (map Z.of_nat (seq 1 32)) (zero_table 4 256))
         0x12345678.
Proof.
  apply (crc32c_shift_linear (map Z.of_nat (seq 1 32)) (zero_table 4 256)
           0xDEADBEEF 0x12345678); [apply shaped_zero_table|lia|lia].
Defined.

(** ** The byte table of [setup_tables] *)

(** X9: entry [k][v] of the byte table is [v] after [8 * (k + 1)] bit
    steps of the reversed polynomial, fits 32 bits, and is linear in [v]. *)
Theorem lookup_table_entries (k : nat) (v w : Z) :
  (k < 8)%nat -> is_byte v -> is_byte w ->
  get2 crc32c_sw_lookup_table k v = Nat.iter (8 * (k + 1)) bit_step v
  /\ 0 <= get2 crc32c_sw_lookup_table k v < 2 ^ 32
  /\ get2 crc32c_sw_lookup_table k (v .^ w)
     = get2 crc32c_sw_lookup_table k v .^ get2 crc32c_sw_lookup_table k w.
Proof.
  intros Hk Hv Hw.
  assert (Hvw : is_byte (v .^ w))
    by (apply (lxor_range 8); [lia|exact Hv|exact Hw]).
  rewrite !lookup_rows by (first [lia|assumption]).
  split; [|split].
  - replace (8 * (k + 1))%nat with (S k * 8)%nat by lia.
    rewrite iter_mul. apply iter_ext. intros x. apply zero_byte_bits.
  - apply zero_bytes_range. unfold is_byte in Hv. lia.
  - apply zero_bytes_lxor.
Qed.

Lemma lookup_table_entries_witness :
  get2 crc32c_sw_lookup_table 7 0x80 = Nat.iter (8 * (7 + 1)) bit_step 0x80.
Proof.
  apply (lookup_table_entries 7 0x80 0x01); [lia|unfold is_byte; lia..].
Defined.

(** ** The engines *)

Lemma crc_bytes_bitwise (bs : list Z) (c : Z) :
  Forall is_byte bs ->
  crc_bytes c bs = fold_left (fun c b => Nat.iter 8 bit_step (c .^ b)) bs c.
Proof.
  intros Hbs. revert c. induction Hbs as [|b bs Hb _ IH]; intros c; [reflexivity|].
  cbn [crc_bytes fold_left]. fold (crc_bytes (sw_byte c b) bs).
  rewrite IH, (sw_byte_zero_byte c b Hb), zero_byte_bits. reflexivity.
Qed.

(** X10: the public [crc32c] computes the bit-at-a-time CRC-32C of the
    buffer: for every engine, address, length and seed it returns what
    one XOR and eight bit steps per byte return. *)
Theorem crc32c_is_bitwise (registers : list Z) (mem : memory)
        (buf len seed : Z) :
  0 <= len ->
  crc32c registers mem buf len seed = crc32c_bitwise (load mem buf len) seed.
Proof.
  intros Hlen. rewrite crc32c_bytes_eq by exact Hlen.
  unfold crc32c_bytes, crc32c_bitwise.
  rewrite (crc_bytes_bitwise _ _ (load_bytes mem buf len)). reflexivity.
Qed.

Lemma crc32c_is_bitwise_witness :
  crc32c [] sample_memory 3 1000 0
  = crc32c_bitwise (load sample_memory 3 1000) 0.
Proof. apply (crc32c_is_bitwise [] sample_memory 3 1000 0). lia. Defined.

(** X11: the capability probe is transparent: whatever [cpuid] reported,
    [crc32c] returns the same value. *)
Theorem crc32c_dispatch_transparent (registers1 registers2 : list Z)
        (mem : memory) (buf len seed : Z) :
  0 <= len ->
  crc32c registers1 mem buf len seed = crc32c registers2 mem buf len seed.
Proof.
  intros Hlen. rewrite !crc32c_bytes_eq by exact Hlen. reflexivity.
Qed.

Lemma crc32c_dispatch_transparent_witness :
  crc32c [0; 0; 0; 0] sample_memory 3 1000 0
  = crc32c [0; 0; 0x00100000; 0] sample_memory 3 1000 0.
Proof.
  apply (crc32c_dispatch_transparent [0; 0; 0; 0] [0; 0; 0x00100000; 0]
           sample_memory 3 1000 0).
  lia.
Defined.

(** X12: the three-lane hardware functions [crc32c_hw] and
    [crc32c_hw_short_block] return what the one-lane [crc32c_hw_1way]
    returns. *)
Theorem crc32c_hw_three_lanes (mem : memory) (buf len seed : Z) :
  0 <= len ->
  crc32c_hw mem buf len seed = crc32c_hw_1way mem buf len seed
  /\ crc32c_hw_short_block mem buf len seed = crc32c_hw_1way mem buf len seed.
Proof.
  intros Hlen.
  rewrite crc32c_hw_bytes, crc32c_hw_short_block_bytes, crc32c_hw_1way_bytes
    by exact Hlen.
  split; reflexivity.
Qed.

Lemma crc32c_hw_three_lanes_witness :
  crc32c_hw sample_memory 3 30000 5 = crc32c_hw_1way sample_memory 3 30000 5
  /\ crc32c_hw_short_block sample_memory 3 30000 5
     = crc32c_hw_1way sample_memory 3 30000 5.
Proof. apply (crc32c_hw_three_lanes sample_memory 3 30000 5). lia. Defined.

(** X13: on a 32-bit register the software folds are the hardware folds:
    the table step on a byte is [_mm_crc32_u8] and [crc32c_sw_inner] is
    [_mm_crc32_u64] on the word at the pointer. *)
Theorem sw_folds_are_hw_folds (mem : memory) (c b p : Z) :
  0 <= c < 2 ^ 32 -> is_byte b ->
  sw_byte c b = hw_byte c b
  /\ crc32c_sw_inner mem c p = hw_word mem c p.
Proof.
  intros Hc Hb. split.
  - symmetry. apply hw_byte_sw_byte; assumption.
  - rewrite crc32c_sw_inner_bytes, hw_word_bytes by exact Hc. reflexivity.
Qed.

Lemma sw_folds_are_hw_folds_witness :
  sw_byte 0xFFFFFFFF 0x31 = hw_byte 0xFFFFFFFF 0x31
  /\ crc32c_sw_inner sample_memory 0xFFFFFFFF 3
     = hw_word sample_memory 0xFFFFFFFF 3.
Proof.
  apply (sw_folds_are_hw_folds sample_memory 0xFFFFFFFF 0x31 3);
    [lia|unfold is_byte; lia].
Defined.

(** ** What the checksum never does *)

Lemma lxor_cancel_r (a b c : Z) : a .^ c = b .^ c -> a = b.
Proof.
  intros H. apply (f_equal (fun t => t .^ c)) in H.
  rewrite !Z.lxor_assoc, Z.lxor_nilpotent, !Z.lxor_0_r in H. exact H.
Qed.

Lemma lxor_cancel_l (a b c : Z) : c .^ a = c .^ b -> a = b.
Proof. rewrite !(Z.lxor_comm c). apply lxor_cancel_r. Qed.

Lemma bit_step_top_bit (x : Z) :
  0 <= x < 2 ^ 32 -> Z.testbit (bit_step x) 31 = Z.odd x.
Proof.
  intros Hx. rewrite bit_step_odd.
  assert (Hhi : Z.testbit (x >> 1) 31 = false).
  { rewrite Z.shiftr_spec by lia. change (31 + 1) with 32.
    rewrite <- (Z.mod_small x (2 ^ 32)) by exact Hx.
    apply Z.mod_pow2_bits_high. lia. }
  destruct (Z.odd x); [|exact Hhi].
  rewrite Z.lxor_spec, Hhi. reflexivity.
Qed.

Lemma shiftr_1_odd (x : Z) : x = 2 * (x >> 1) + (if Z.odd x then 1 else 0).
Proof.
  rewrite shiftr_1_div, <- Zmod_odd. apply Z.div_mod. lia.
Qed.

(** The bit step loses nothing: the reversed polynomial has bit 31 set,
    so the bit shifted out can be read off the result. *)
Lemma bit_step_inj (x y : Z) :
  0 <= x < 2 ^ 32 -> 0 <= y < 2 ^ 32 -> bit_step x = bit_step y -> x = y.
Proof.
  intros Hx Hy H.
  assert (Hodd : Z.odd x = Z.odd y)
    by (rewrite <- (bit_step_top_bit x Hx), <- (bit_step_top_bit y Hy), H;
        reflexivity).
  rewrite !bit_step_odd, <- Hodd in H.
  assert (Hs : x >> 1 = y >> 1)
    by (destruct (Z.odd x); [apply (lxor_cancel_r _ _ _ H)|exact H]).
  rewrite (shiftr_1_odd x), (shiftr_1_odd y), Hs, Hodd. reflexivity.
Qed.

Lemma iter_inj {A : Type} (P : A -> Prop) (f : A -> A) :
  (forall x, P x -> P (f x)) ->
  (forall x y, P x -> P y -> f x = f y -> x = y) ->
  forall n x y, P x -> P y -> Nat.iter n f x = Nat.iter n f y -> x = y.
Proof.
  intros Hp Hinj n. induction n as [|n IH]; intros x y Hx Hy H; [exact H|].
  rewrite !Nat.iter_succ_r in H.
  apply Hinj; [exact Hx|exact Hy|]. apply IH; [apply Hp, Hx|apply Hp, Hy|exact H].
Qed.

Lemma zero_byte_inj (x y : Z) :
  0 <= x < 2 ^ 32 -> 0 <= y < 2 ^ 32 -> zero_byte x = zero_byte y -> x = y.
Proof.
  intros Hx Hy H. rewrite !zero_byte_bits in H.
  apply (iter_inj (fun x => 0 <= x < 2 ^ 32) bit_step
           bit_step_range bit_step_inj 8 x y Hx Hy H).
Qed.

Lemma byte_u32 (b : Z) : is_byte b -> 0 <= b < 2 ^ 32.
Proof. unfold is_byte. lia. Qed.

Lemma sw_byte_inj_crc (c1 c2 b : Z) :
  0 <= c1 < 2 ^ 32 -> 0 <= c2 < 2 ^ 32 -> is_byte b ->
  sw_byte c1 b = sw_byte c2 b -> c1 = c2.
Proof.
  intros H1 H2 Hb H. rewrite !sw_byte_zero_byte in H by exact Hb.
  apply zero_byte_inj in H;
    [|apply lxor_range; [lia|assumption|apply byte_u32, Hb]..].
  apply (lxor_cancel_r _ _ _ H).
Qed.

Lemma sw_byte_inj_byte (c b1 b2 : Z) :
  0 <= c < 2 ^ 32 -> is_byte b1 -> is_byte b2 ->
  sw_byte c b1 = sw_byte c b2 -> b1 = b2.
Proof.
  intros Hc H1 H2 H.
  rewrite (sw_byte_zero_byte c b1 H1), (sw_byte_zero_byte c b2 H2) in H.
  apply zero_byte_inj in H;
    [|apply lxor_range; [lia|exact Hc|apply byte_u32; assumption]..].
  apply (lxor_cancel_l _ _ _ H).
Qed.

Lemma crc_bytes_inj (bs : list Z) (c1 c2 : Z) :
  Forall is_byte bs -> 0 <= c1 < 2 ^ 32 -> 0 <= c2 < 2 ^ 32 ->
  crc_bytes c1 bs = crc_bytes c2 bs -> c1 = c2.
Proof.
  intros Hbs. revert c1 c2.
  induction Hbs as [|b bs Hb _ IH]; intros c1 c2 H1 H2 H; [exact H|].
  cbn [crc_bytes fold_left] in H.
  apply (sw_byte_inj_crc c1 c2 b H1 H2 Hb).
  apply IH; [apply sw_byte_range, H1|apply sw_byte_range, H2|exact H].
Qed.

Lemma finish_inj (c1 c2 : Z) :
  0 <= c1 < 2 ^ 32 -> 0 <= c2 < 2 ^ 32 ->
  to_u32 (c1 .^ u32_max) = to_u32 (c2 .^ u32_max) -> c1 = c2.
Proof.
  intros H1 H2 H.
  rewrite !to_u32_small in H
    by (apply lxor_range; [lia|assumption|exact u32_max_range]).
  apply (lxor_cancel_r _ _ _ H).
Qed.

Lemma crc32c_bytes_inj_seed (bs : list Z) (s1 s2 : Z) :
  Forall is_byte bs -> 0 <= s1 < 2 ^ 32 -> 0 <= s2 < 2 ^ 32 ->
  crc32c_bytes bs s1 = crc32c_bytes bs s2 -> s1 = s2.
Proof.
  intros Hbs H1 H2 H. unfold crc32c_bytes in H.
  apply finish_inj in H; [|apply crc_bytes_range, to_u32_range..].
  apply crc_bytes_inj in H; [|exact Hbs|apply to_u32_range..].
  rewrite !u32_not_lxor in H by assumption.
  apply (lxor_cancel_r _ _ _ H).
Qed.

(** X14: over the same bytes two different 32-bit seeds never give the
    same checksum. *)
Theorem crc32c_seeds_differ (registers : list Z) (mem : memory)
        (buf len seed1 seed2 : Z) :
  0 <= len -> 0 <= seed1 < 2 ^ 32 -> 0 <= seed2 < 2 ^ 32 ->
  seed1 <> seed2 ->
  crc32c registers mem buf len seed1 <> crc32c registers mem buf len seed2.
Proof.
  intros Hlen H1 H2 Hne H. apply Hne.
  rewrite !crc32c_bytes_eq in H by exact Hlen.
  apply (crc32c_bytes_inj_seed _ _ _ (load_bytes mem buf len) H1 H2 H).
Qed.

Lemma crc32c_seeds_differ_witness :
  crc32c [] sample_memory 3 1000 0 <> crc32c [] sample_memory 3 1000 1.
Proof.
  apply (crc32c_seeds_differ [] sample_memory 3 1000 0 1); lia.
Defined.

(** X15: two buffers of the same length that differ in exactly one byte
    never have the same checksum, whatever the seed. *)
Theorem crc32c_detects_one_byte (registers : list Z) (mem1 mem2 : memory)
        (buf1 buf2 len seed : Z) (pre suf : list Z) (b1 b2 : Z) :
  0 <= len ->
  load mem1 buf1 len = pre ++ b1 :: suf ->
  load mem2 buf2 len = pre ++ b2 :: suf ->
  b1 <> b2 ->
  crc32c registers mem1 buf1 len seed <> crc32c registers mem2 buf2 len seed.
Proof.
  intros Hlen L1 L2 Hne H. apply Hne.
  rewrite !crc32c_bytes_eq in H by exact Hlen.
  pose proof (load_bytes mem1 buf1 len) as B1.
  pose proof (load_bytes mem2 buf2 len) as B2.
  rewrite L1 in B1, H. rewrite L2 in B2, H.
  apply Forall_app in B1. destruct B1 as [Hpre B1].
  apply Forall_app in B2. destruct B2 as [_ B2].
  inversion B1 as [|? ? Hb1 Hsuf]; subst.
  inversion B2 as [|? ? Hb2 _]; subst.
  unfold crc32c_bytes in H.
  apply finish_inj in H; [|apply crc_bytes_range, to_u32_range..].
  rewrite !crc_bytes_app in H. cbn [crc_bytes fold_left] in H.
  pose proof (crc_bytes_range pre _ (to_u32_range (Z.lnot seed))) as Hc.
  fold (u32_not seed) in Hc. fold (crc_bytes (u32_not seed) pre) in H.
  set (c := crc_bytes (u32_not seed) pre) in *.
  apply crc_bytes_inj in H;
    [|exact Hsuf|apply sw_byte_range, Hc|apply sw_byte_range, Hc].
  apply (sw_byte_inj_byte c b1 b2 Hc Hb1 Hb2 H).
Qed.

Lemma crc32c_detects_one_byte_witness :
  crc32c [] sample_memory 3 3 7 <> crc32c [] patched_memory 3 3 7.
Proof.
  apply (crc32c_detects_one_byte [] sample_memory patched_memory 3 3 3 7
           [3] [5] 4 9); [lia|reflexivity|reflexivity|lia].
Defined.

(** ** Combining checksums *)

Lemma u32_not_0 : u32_not 0 = u32_max.
Proof. reflexivity. Qed.

(** The checksum of [A ++ B] from the checksum of [A] and the checksum of
    [B] from seed 0. *)
Lemma crc32c_bytes_combine (A B : list Z) (seed : Z) :
  Forall is_byte B ->
  crc32c_bytes (A ++ B) seed
  = Nat.iter (length B) zero_byte (crc32c_bytes A seed) .^ crc32c_bytes B 0.
Proof.
  intros HB. unfold crc32c_bytes. rewrite u32_not_0, crc_bytes_app.
  set (cA := crc_bytes (u32_not seed) A).
  assert (HcA : 0 <= cA < 2 ^ 32) by apply crc_bytes_range, to_u32_range.
  rewrite (crc_bytes_shift B cA HB), (crc_bytes_shift B u32_max HB).
  set (n := length B). set (cB := crc_bytes 0 B).
  assert (HcB : 0 <= cB < 2 ^ 32) by (apply crc_bytes_range; lia).
  pose proof u32_max_range as HM.
  pose proof (zero_bytes_range n cA HcA) as R1.
  pose proof (zero_bytes_range n u32_max HM) as R2.
  rewrite !to_u32_small
    by (repeat first [assumption|apply lxor_range; [lia| |]]).
  rewrite zero_bytes_lxor. xor_ac.
Qed.

(** X16: the shift tables combine checksums computed apart: the checksum
    of a buffer whose last [SHORT_BLOCK] (or [LONG_BLOCK]) bytes are the
    block [B] is the checksum of the bytes before it, moved through
    [crc32c_shift], XOR the checksum of [B] from seed 0. *)
Theorem crc32c_combine (registers : list Z) (mem : memory) (buf len seed : Z) :
  0 <= len ->
  crc32c registers mem buf (len + SHORT_BLOCK) seed
  = crc32c_shift crc32c_short (crc32c registers mem buf len seed)
    .^ crc32c registers mem (buf + len) SHORT_BLOCK 0
  /\ crc32c registers mem buf (len + LONG_BLOCK) seed
     = crc32c_shift crc32c_long (crc32c registers mem buf len seed)
       .^ crc32c registers mem (buf + len) LONG_BLOCK 0.
Proof.
  intros Hlen.
  rewrite !crc32c_bytes_eq by (unfold SHORT_BLOCK, LONG_BLOCK; lia).
  rewrite !load_app by (unfold SHORT_BLOCK, LONG_BLOCK; lia).
  rewrite crc32c_shift_short, crc32c_shift_long
    by (unfold crc32c_bytes; apply to_u32_range).
  rewrite !crc32c_bytes_combine by apply load_bytes.
  rewrite !load_length. split; reflexivity.
Qed.

Lemma crc32c_combine_witness :
  crc32c [] sample_memory 3 (1000 + SHORT_BLOCK) 9
  = crc32c_shift crc32c_short (crc32c [] sample_memory 3 1000 9)
    .^ crc32c [] sample_memory (3 + 1000) SHORT_BLOCK 0.
Proof.
  exact (proj1 (crc32c_combine [] sample_memory 3 1000 9 ltac:(lia))).
Defined.

(** ** The alignment loop *)

Lemma land_mask_mod (a : Z) : a .& ALIGN64_MASK = a mod 8.
Proof.
  change ALIGN64_MASK with (Z.ones 3). rewrite Z.land_ones by lia.
  reflexivity.
Qed.

(** X17: the first loop of every engine consumes at most 7 bytes, one at
    a time, and leaves the pointer 8-byte aligned unless the buffer is
    exhausted before. *)
Theorem align_loop_aligns (mem : memory) (fold_byte : Z -> Z -> Z) (s : cursor) :
  0 <= len s ->
  let s' := align_loop mem fold_byte s in
  (buf s' .& ALIGN64_MASK = 0 \/ len s' = 0)
  /\ 0 <= len s - len s' <= 7
  /\ buf s' = buf s + (len s - len s').
Proof.
  intros Hlen s'. subst s'. unfold align_loop.
  destruct (while_loop_inv
              (fun t => 0 <= len t <= len s
                        /\ buf t = buf s + (len s - len t)
                        /\ forall j, 0 <= j < len s - len t ->
                                     (buf s + j) mod 8 <> 0)
              fuel_of unaligned (eat_byte mem fold_byte))
    with (fuel := fuel_of s) (s := s) as [(Hl & Hb & Hj) Hexit].
  - intros t (Hl & Hb & Hj) Hcond. unfold unaligned in Hcond.
    apply andb_true_iff in Hcond. destruct Hcond as [Hua Hpos].
    rewrite land_mask_mod in Hua.
    split; [|unfold fuel_of, eat_byte; cbn [len]; lia].
    unfold eat_byte. cbn [len buf].
    split; [lia|]. split; [lia|].
    intros j Hjr. destruct (Z.eq_dec j (len s - len t)) as [->|Hne].
    + rewrite <- Hb. destruct (Z.eqb_spec (buf t mod 8) 0); [discriminate|assumption].
    + apply Hj. lia.
  - split; [lia|]. split; [lia|]. intros j Hjr. lia.
  - apply Nat.le_refl.
  - set (t := while_loop (fuel_of s) unaligned (eat_byte mem fold_byte) s) in *.
    split; [|split; [|exact Hb]].
    + unfold unaligned in Hexit. rewrite land_mask_mod in *.
      destruct (Z.eqb_spec (buf t mod 8) 0) as [E|_]; [left; exact E|].
      right. cbn [negb andb] in Hexit. lia.
    + split; [lia|].
      destruct (Z_le_gt_dec (len s - len t) 7) as [|Hbig]; [assumption|].
      exfalso. apply (Hj ((- buf s) mod 8)).
      * pose proof (Z.mod_pos_bound (- buf s) 8 ltac:(lia)). lia.
      * Z.div_mod_to_equations. lia.
Qed.

Lemma align_loop_aligns_witness :
  let s' := align_loop sample_memory sw_byte (mk_cursor 0 3 100) in
  (buf s' .& ALIGN64_MASK = 0 \/ len s' = 0)
  /\ 0 <= len (mk_cursor 0 3 100) - len s' <= 7
  /\ buf s' = buf (mk_cursor 0 3 100) + (len (mk_cursor 0 3 100) - len s').
Proof.
  apply (align_loop_aligns sample_memory sw_byte (mk_cursor 0 3 100)).
  simpl. lia.
Defined.

(** X18: the word loop eats 8 bytes at a time and leaves the last
    [len mod 8] bytes to the byte loop, with the pointer advanced past the
    words. *)
Theorem word_loop_leaves_tail (mem : memory) (fold_word : memory -> Z -> Z -> Z)
        (s : cursor) :
  0 <= len s ->
  let s' := word_loop mem fold_word s in
  len s' = len s mod 8 /\ buf s' = buf s + (len s - len s mod 8).
Proof.
  intros Hlen s'. subst s'. unfold word_loop.
  destruct (while_loop_inv
              (fun t => 0 <= len t <= len s
                        /\ (len s - len t) mod 8 = 0
                        /\ buf t = buf s + (len s - len t))
              fuel_of (fun t => len t >=? 8) (eat_word mem fold_word))
    with (fuel := fuel_of s) (s := s) as [(Hl & Hm & Hb) Hexit].
  - intros t (Hl & Hm & Hb) Hcond.
    split; [|unfold fuel_of, eat_word; cbn [len]; lia].
    unfold eat_word. cbn [len buf].
    split; [lia|]. split; [Z.div_mod_to_equations; lia|lia].
  - split; [lia|]. split; [rewrite Z.sub_diag; reflexivity|lia].
  - apply Nat.le_refl.
  - set (t := while_loop (fuel_of s) (fun t => len t >=? 8)
                (eat_word mem fold_word) s) in *.
    cbv beta in Hexit.
    assert (Ht : len t = len s mod 8) by (Z.div_mod_to_equations; lia).
    split; [exact Ht|]. rewrite <- Ht. exact Hb.
Qed.

Lemma word_loop_leaves_tail_witness :
  let s' := word_loop sample_memory crc32c_sw_inner (mk_cursor 0 8 100) in
  len s' = len (mk_cursor 0 8 100) mod 8
  /\ buf s' = buf (mk_cursor 0 8 100)
              + (len (mk_cursor 0 8 100) - len (mk_cursor 0 8 100) mod 8).
Proof.
  apply (word_loop_leaves_tail sample_memory crc32c_sw_inner (mk_cursor 0 8 100)).
  simpl. lia.
Defined.
